(** * Typed accessors over a configuration tree (package [config])

    A shallow embedding of the key-path resolver and the typed accessors of
    the package, in the two generations the repository holds:

    - [Read]: the current accessors ([Get], [String], [Int], [Int64],
      [Ints], [Strings], [StringMap], [Structure], [parseEnvValue],
      [formatKey]) of src/unnamed/part_000;
    - [ConfigGet]: the earlier accessors ([Get], [GetString], [GetInt],
      [GetInt64], [GetIntArr], [GetStructure]) of src/config_get.go.

    Go strings are byte strings: they are modelled by [string] (a list of
    8-bit [ascii]).  [int] is the 64-bit [int] of the usual targets and is
    modelled by [Z]; [strconv.Atoi] refuses what does not fit.  A run-time
    panic is an outcome of its own, so that "returns ok=false" and "faults"
    are told apart. *)

From Stdlib Require Import ZArith String Ascii List Lia Bool DecimalString DecimalPos.
From stdpp Require Import base option list gmap strings.

Set Warnings "-register-all".
Local Open Scope string_scope.
Local Open Scope Z_scope.

(** ** The Go library functions the accessors call *)

Module Go.

(** Bytes. *)

Definition code (a : ascii) : nat := nat_of_ascii a.

Definition between (lo hi : nat) (a : ascii) : bool :=
  (Nat.leb lo (code a)) && (Nat.leb (code a) hi).

Definition isDigit (a : ascii) : bool := between 48 57 a.

(** [\w] of RE2: ASCII letters, digits and the underscore. *)
Definition isWord (a : ascii) : bool :=
  isDigit a || between 65 90 a || between 97 122 a || Ascii.eqb a "_".

(** [strings.HasPrefix]. *)
Fixpoint HasPrefix (s p : string) {struct p} : bool :=
  match p, s with
  | EmptyString, _ => true
  | String b p', String a s' => Ascii.eqb a b && HasPrefix s' p'
  | String _ _, EmptyString => false
  end.

(** [strings.Contains s sub], that is [strings.Index s sub != -1]. *)
Fixpoint Contains (s sub : string) : bool :=
  HasPrefix s sub ||
  match s with
  | EmptyString => false
  | String _ s' => Contains s' sub
  end.

Fixpoint drop (n : nat) (s : string) : string :=
  match n, s with
  | O, _ => s
  | S k, String _ s' => drop k s'
  | S _, EmptyString => EmptyString
  end.

Fixpoint rev_append (s acc : string) : string :=
  match s with
  | EmptyString => acc
  | String a s' => rev_append s' (String a acc)
  end.

Definition rev (s : string) : string := rev_append s EmptyString.

(** The slice expression [s[lo : len(s)-hi]] for [lo + hi <= len(s)]. *)
Definition slice (lo hi : nat) (s : string) : string :=
  rev (drop hi (rev (drop lo s))).

(** *** [strings.TrimSpace]

    White space is Unicode's [White_Space]; on the UTF-8 bytes of a Go
    string these are the one-byte runes U+0009..U+000D and U+0020 and the
    multi-byte runes U+0085, U+00A0, U+1680, U+2000..U+200A, U+2028,
    U+2029, U+202F, U+205F and U+3000.  [spaceLen s] is the number of
    bytes of the white-space rune that starts [s], or 0. *)

Definition isAsciiSpace (a : ascii) : bool :=
  between 9 13 a || Ascii.eqb a " ".

Definition spaceLen (s : string) : nat :=
  match s with
  | EmptyString => 0
  | String a r =>
    if isAsciiSpace a then 1
    else match code a, r with
    | 194%nat, String b _ =>
        if Nat.eqb (code b) 133 || Nat.eqb (code b) 160 then 2 else 0
    | 225%nat, String b (String c _) =>
        if Nat.eqb (code b) 154 && Nat.eqb (code c) 128 then 3 else 0
    | 226%nat, String b (String c _) =>
        if Nat.eqb (code b) 128 &&
           (between 128 138 c || Nat.eqb (code c) 168 ||
            Nat.eqb (code c) 169 || Nat.eqb (code c) 175) then 3
        else if Nat.eqb (code b) 129 && Nat.eqb (code c) 159 then 3
        else 0
    | 227%nat, String b (String c _) =>
        if Nat.eqb (code b) 128 && Nat.eqb (code c) 128 then 3 else 0
    | _, _ => 0
    end
  end%nat.

(** The same test on the reversed bytes, for the rune that ends a string. *)
Definition spaceLenRev (s : string) : nat :=
  match s with
  | EmptyString => 0
  | String a r =>
    if isAsciiSpace a then 1
    else match r with
    | String b r' =>
        if Nat.eqb (code b) 194 && (Nat.eqb (code a) 133 || Nat.eqb (code a) 160)
        then 2
        else match r' with
        | String c _ => spaceLen (String c (String b (String a EmptyString)))
        | EmptyString => 0
        end
    | EmptyString => 0
    end
  end%nat.

Fixpoint trimWith (len : string -> nat) (skip : nat) (s : string) : string :=
  match s with
  | EmptyString => EmptyString
  | String _ r =>
    match skip with
    | S k => trimWith len k r
    | O => match len s with
           | O => s
           | S k => trimWith len k r
           end
    end
  end.

Definition TrimSpace (s : string) : string :=
  rev (trimWith spaceLenRev 0 (rev (trimWith spaceLen 0 s))).

(** *** [strings.Trim s cutset] for a cutset of ASCII bytes *)

Fixpoint inCutset (cutset : string) (a : ascii) : bool :=
  match cutset with
  | EmptyString => false
  | String b cs => Ascii.eqb a b || inCutset cs a
  end.

Fixpoint trimLeft (cutset s : string) : string :=
  match s with
  | EmptyString => EmptyString
  | String a r => if inCutset cutset a then trimLeft cutset r else s
  end.

Definition Trim (s cutset : string) : string :=
  rev (trimLeft cutset (rev (trimLeft cutset s))).

(** *** [strings.Split s sep] and [strings.SplitN s sep 2] for a one-byte separator *)

Fixpoint Split (s : string) (sep : ascii) : list string :=
  match s with
  | EmptyString => [EmptyString]
  | String a r =>
    if Ascii.eqb a sep then EmptyString :: Split r sep
    else match Split r sep with
         | x :: xs => String a x :: xs
         | [] => [String a EmptyString]
         end
  end.

(** [cut s sep]: the text before and after the first [sep], if any. *)
Fixpoint cut (s : string) (sep : ascii) : option (string * string) :=
  match s with
  | EmptyString => None
  | String a r =>
    if Ascii.eqb a sep then Some (EmptyString, r)
    else match cut r sep with
         | Some (x, y) => Some (String a x, y)
         | None => None
         end
  end.

Definition SplitN2 (s : string) (sep : ascii) : list string :=
  match cut s sep with
  | Some (x, y) => [x; y]
  | None => [s]
  end.

(** *** [strconv.Atoi]

    An optional sign and at least one decimal digit, nothing else; the
    value has to fit the 64-bit [int].  [None] stands for a non-nil
    [*NumError]. *)

Fixpoint digits (acc : Z) (s : string) : option Z :=
  match s with
  | EmptyString => Some acc
  | String a r =>
    if isDigit a then digits (10 * acc + (Z.of_nat (code a) - 48)) r else None
  end.

Definition unsigned (s : string) : option Z :=
  match s with
  | EmptyString => None
  | _ => digits 0 s
  end.

Definition minInt : Z := - 2 ^ 63.
Definition maxInt : Z := 2 ^ 63 - 1.

Definition inRange (z : Z) : option Z :=
  if (minInt <=? z) && (z <=? maxInt) then Some z else None.

Definition Atoi (s : string) : option Z :=
  match s with
  | String "-" r => n ← unsigned r; inRange (- n)
  | String "+" r => n ← unsigned r; inRange n
  | _ => n ← unsigned s; inRange n
  end.

(** [fmt.Sprintf("%v", n)] and [strconv.Itoa n]: the decimal text of an integer. *)
Definition Itoa (z : Z) : string := NilZero.string_of_int (Z.to_int z).

(** *** The matches of [envRegex], [\${([\w-| ]+)}]

    The class holds the word bytes, the hyphen, the bar and the space.
    A match is ["${"], the longest run of class bytes (at least one) and
    ["}"]; as ["}"] is outside the class no shorter run can match.
    [FindAllString val (-1)] collects the matches from left to right,
    resuming after each one. *)

Definition inClass (a : ascii) : bool :=
  isWord a || Ascii.eqb a "-" || Ascii.eqb a "|" || Ascii.eqb a " ".

Fixpoint span (s : string) : string * string :=
  match s with
  | EmptyString => (EmptyString, EmptyString)
  | String a r =>
    if inClass a then let '(x, y) := span r in (String a x, y)
    else (EmptyString, s)
  end.

Definition matchAt (s : string) : option string :=
  if HasPrefix s "${" then
    match span (drop 2 s) with
    | (String b body, String "}" _) => Some ("${" ++ String b body ++ "}")
    | _ => None
    end
  else None.

Fixpoint findAll (skip : nat) (s : string) : list string :=
  match s with
  | EmptyString => []
  | String _ r =>
    match skip with
    | S k => findAll k r
    | O => match matchAt s with
           | Some tok => tok :: findAll (String.length tok - 1) r
           | None => findAll 0 r
           end
    end
  end.

Definition FindAllString (s : string) : list string := findAll 0 s.

(** *** [strings.NewReplacer(oldnew...).Replace]

    The text is scanned from left to right; at each position the first
    pair, in argument order, whose old string starts there is applied and
    the scan resumes behind it; a byte no pair starts at is copied.  The
    pairs carry non-empty old strings here (they are matches of
    [envRegex]); a pair with an empty old string is never applied. *)

Fixpoint lookupOld (pairs : list (string * string)) (s : string)
  : option (string * string) :=
  match pairs with
  | [] => None
  | (old, new) :: ps =>
    if negb (String.eqb old EmptyString) && HasPrefix s old then Some (old, new)
    else lookupOld ps s
  end.

Fixpoint replace (pairs : list (string * string)) (skip : nat) (s : string)
  : string :=
  match s with
  | EmptyString => EmptyString
  | String a r =>
    match skip with
    | S k => replace pairs k r
    | O => match lookupOld pairs s with
           | Some (old, new) => new ++ replace pairs (String.length old - 1) r
           | None => String a (replace pairs 0 r)
           end
    end
  end.

Definition Replace (pairs : list (string * string)) (s : string) : string :=
  replace pairs 0 s.

(** *** [strings.ToLower]

    A text of ASCII bytes has its capital letters moved to the small
    ones, byte by byte; for a text with a byte outside ASCII, Go maps
    [unicode.ToLower] over the runes, which is left to [mapLower]. *)

Definition isASCII (a : ascii) : bool := Nat.ltb (code a) 128.

Definition lowerByte (a : ascii) : ascii :=
  if between 65 90 a then ascii_of_nat (code a + 32) else a.

Fixpoint allBytes (p : ascii -> bool) (s : string) : bool :=
  match s with
  | EmptyString => true
  | String a r => p a && allBytes p r
  end.

Fixpoint mapBytes (f : ascii -> ascii) (s : string) : string :=
  match s with
  | EmptyString => EmptyString
  | String a r => String (f a) (mapBytes f r)
  end.

Definition ToLower (mapLower : string -> string) (s : string) : string :=
  if allBytes isASCII s then mapBytes lowerByte s else mapLower s.

End Go.

(** ** The Value Store *)

(** The dynamic types the accessors tell apart.  [VOther] stands for a
    value of any further dynamic type (a struct, a pointer, ...). *)

Inductive intKind : Set :=
| KInt | KInt8 | KInt16 | KInt32 | KInt64
| KUint | KUint8 | KUint16 | KUint32 | KUint64.

Inductive floatKind : Set := KFloat32 | KFloat64.

Inductive value : Type :=
| VNil                                      (* the nil interface *)
| VBool (b : bool)
| VInt (k : intKind) (n : Z)
| VFloat (k : floatKind) (bits : Z)         (* the IEEE 754 bits *)
| VStr (s : string)
| VMapStrStr (m : gmap string string)       (* map[string]string *)
| VMapStrInt (m : gmap string Z)            (* map[string]int *)
| VMapStrAny (m : gmap string value)        (* map[string]interface{} *)
| VMapAnyAny (m : list (value * value))     (* map[interface{}]interface{} *)
| VInts (l : list Z)                        (* []int *)
| VStrings (l : list string)                (* []string *)
| VSlice (l : list value)                   (* []interface{} *)
| VOther (type : string).

(** The entry of a [map[interface{}]interface{}] whose key is the string
    [k]: the key of an entry is listed once, so the first hit is the only
    one. *)
Definition isKey (k : string) (kv : value * value) : bool :=
  match kv.1 with
  | VStr s => String.eqb s k
  | _ => false
  end.

Definition lookupAny (k : string) (m : list (value * value)) : option value :=
  snd <$> List.find (isKey k) m.

Inductive error : Type :=
| errInvalidKey                 (* "invalid config key string" *)
| errNil                        (* a nil error *)
| NumError (num : string)       (* what strconv.Atoi returns on a failure *)
| Errorf (msg : string)         (* an error made by addErrorf *)
| CodecError (msg : string).    (* an error of the JSON encoder or decoder *)

(** Modelled from the spec: the structs [Options] and [Config], which src/
    uses and does not declare; they hold the fields the accessors read
    and write, and the error log of [addError]. *)
Record Options : Type := {
  Readonly : bool;
  EnableCache : bool;
  ParseEnv : bool
}.

Record Config : Type := {
  opts : Options;
  data : gmap string value;
  strCache : gmap string string;
  sArrCache : gmap string (list string);
  sMapCache : gmap string (gmap string string);
  errors : list error
}.

(** Modelled from the spec: [addError] and [addErrorf], which src/ only
    calls; they append to the append-only error log of the instance. *)
Definition addError (e : error) (c : Config) : Config :=
  {| opts := opts c; data := data c; strCache := strCache c;
     sArrCache := sArrCache c; sMapCache := sMapCache c;
     errors := errors c ++ [e] |}.

Definition addErrors (es : list error) (c : Config) : Config :=
  foldl (fun c e => addError e c) c es.

Definition setStrCache (m : gmap string string) (c : Config) : Config :=
  {| opts := opts c; data := data c; strCache := m;
     sArrCache := sArrCache c; sMapCache := sMapCache c; errors := errors c |}.

Definition setSArrCache (m : gmap string (list string)) (c : Config) : Config :=
  {| opts := opts c; data := data c; strCache := strCache c;
     sArrCache := m; sMapCache := sMapCache c; errors := errors c |}.

Definition setSMapCache (m : gmap string (gmap string string)) (c : Config) : Config :=
  {| opts := opts c; data := data c; strCache := strCache c;
     sArrCache := sArrCache c; sMapCache := m; errors := errors c |}.

(** The same instance over another Value Store. *)
Definition withData (d : gmap string value) (c : Config) : Config :=
  {| opts := opts c; data := d; strCache := strCache c;
     sArrCache := sArrCache c; sMapCache := sMapCache c; errors := errors c |}.

(** ** Outcomes

    A call either returns its results, leaving the instance in a new
    state, or panics.  The read/write lock has no effect on the results
    of a single sequential call and is left out. *)

Inductive panic : Type :=
| IndexOutOfRange (i : Z) (len : nat).

Inductive outcome (A : Type) : Type :=
| Ret (a : A) (c : Config)
| Panic (p : panic).
Arguments Ret {A} a c.
Arguments Panic {A} p.

Definition andThen {A B : Type} (o : outcome A) (k : A -> Config -> outcome B)
  : outcome B :=
  match o with
  | Ret a c => k a c
  | Panic p => Panic p
  end.

Notation "'call' o 'as' x , c 'in' k" :=
  (andThen o (fun x c => k))
  (at level 10, x pattern, c name, k at level 200).

(** What a call returned, if it returned. *)
Definition result {A : Type} (o : outcome A) : option A :=
  match o with
  | Ret a _ => Some a
  | Panic _ => None
  end.

Definition faults {A : Type} (o : outcome A) : Prop :=
  match o with
  | Ret _ _ => False
  | Panic _ => True
  end.

(** One step of a key-path walk. *)
Inductive step : Type :=
| Descend (item : value)
| Stop (es : list error)
| Fault (p : panic).

(** The expression [typeData[i]] of Go: a panic outside [0, len). *)
Definition at_index {A : Type} (l : list A) (i : Z) : A + panic :=
  match (if i <? 0 then None else l !! Z.to_nat i) with
  | Some x => inl x
  | None => inr (IndexOutOfRange i (length l))
  end.

Definition int64 (n : Z) : Z := n.    (* int and int64 have the same 64 bits *)

(** ** Formatting and the environment *)

(** [fmt.Sprintf("%v", v)].  The text of a float or of a composite value
    is left to [fmtOther]. *)
Definition Sprint (fmtOther : value -> string) (v : value) : string :=
  match v with
  | VNil => "<nil>"
  | VBool true => "true"
  | VBool false => "false"
  | VInt _ n => Go.Itoa n
  | VStr s => s
  | _ => fmtOther v
  end.

(** [os.Getenv name] in the process environment [env]: the empty string
    for a variable that is not set. *)
Definition Getenv (env : gmap string string) (name : string) : string :=
  default "" (env !! name).

(** ** The current accessors (src/unnamed/part_000) *)

Module Read.

Section Accessors.

(** The process environment read by [os.Getenv], and the text
    [fmt.Sprintf("%v", v)] gives for a float or a composite value. *)
Variable env : gmap string string.
Variable fmtOther : value -> string.

Definition formatKey (key : string) : string :=
  Go.Trim (Go.TrimSpace key) ".".

(** The body of the [switch] over the current node, for the segment [k]
    of the whole key [key]. *)
Definition index {A : Type} (inj : A -> value) (typeData : list A) (k : string)
  : step :=
  match Go.Atoi k with
  | None => Stop [NumError k]
  | Some i =>
    if Z.of_nat (length typeData) <? i then Stop [errNil]
    else match at_index typeData i with
         | inl x => Descend (inj x)
         | inr p => Fault p
         end
  end.

Definition child (key : string) (item : value) (k : string) : step :=
  match item with
  | VMapStrStr typeData =>
    match typeData !! k with
    | Some s => Descend (VStr s)
    | None => Stop []
    end
  | VMapStrAny typeData =>
    match typeData !! k with
    | Some v => Descend v
    | None => Stop []
    end
  | VMapAnyAny typeData =>
    match lookupAny k typeData with
    | Some v => Descend v
    | None => Stop []
    end
  | VInts typeData => index (VInt KInt) typeData k
  | VStrings typeData => index VStr typeData k
  | VSlice typeData => index id typeData k
  | _ => Stop [Errorf ("cannot get value of the key '" ++ key ++ "'")]
  end.

(** The loop [for _, k := range keys[1:]]. *)
Fixpoint walk (key : string) (item : value) (keys : list string) : step :=
  match keys with
  | [] => Descend item
  | k :: ks =>
    match child key item k with
    | Descend item' => walk key item' ks
    | s => s
    end
  end.

(** [len(findByPath) > 0 && !findByPath[0]]. *)
Definition pathDisabled (findByPath : list bool) : bool :=
  match findByPath with
  | b :: _ => negb b
  | [] => false
  end.

Definition Get (c : Config) (key : string) (findByPath : list bool)
  : outcome (value * bool) :=
  let key := formatKey key in
  if String.eqb key "" then Ret (VNil, false) (addError errInvalidKey c)
  else
    match data c !! key with
    | Some value => Ret (value, true) c
    | None =>
      if pathDisabled findByPath then Ret (VNil, false) c
      else if negb (Go.Contains key ".") then Ret (VNil, false) c
      else
        match Go.Split key "." with
        | [] => Ret (VNil, false) c
        | topK :: rest =>
          match data c !! topK with
          | None => Ret (VNil, false) c
          | Some item =>
            match walk key item rest with
            | Descend item' => Ret (item', true) c
            | Stop es => Ret (VNil, false) (addErrors es c)
            | Fault p => Panic p
            end
          end
        end
    end.

(** *** Environment interpolation *)

(** The pair of one matched token [fVar] that the loop appends to [oldNew]. *)
Definition resolve (fVar : string) : string * string :=
  let ss := Go.SplitN2 (Go.slice 2 1 fVar) "|" in
  let '(name, def) :=
    match ss with
    | [n; d] => (Go.TrimSpace n, Go.TrimSpace d)
    | _ => (hd "" ss, fVar)
    end in
  let envVal := Getenv env name in
  (fVar, if String.eqb envVal "" then def else envVal).

Definition parseEnvValue (val : string) : string :=
  if negb (Go.Contains val "${") then val
  else
    match Go.FindAllString val with
    | [] => val
    | vars => Go.Replace (resolve <$> vars) val
    end.

(** *** Basic types *)

(** The integer kinds named by the first case of the [switch] in [String]:
    every one but [uint32]. *)
Definition listed (k : intKind) : bool :=
  match k with
  | KUint32 => false
  | _ => true
  end.

(** The [switch] of [String]: the text of [val], or [None] in the default case. *)
Definition toString (parseEnv : bool) (val : value) : option string :=
  match val with
  | VBool _ | VFloat _ _ => Some (Sprint fmtOther val)
  | VInt k _ => if listed k then Some (Sprint fmtOther val) else None
  | VStr _ =>
    let value := Sprint fmtOther val in
    Some (if parseEnv then parseEnvValue value else value)
  | _ => None
  end.

(** A look at a cache map [m], as the accessors guard it. *)
Definition fromCache {A : Type} (c : Config) (m : gmap string A) (key : string)
  : option A :=
  if EnableCache (opts c) && (0 <? Z.of_nat (size m)) then m !! key else None.

Definition String (c : Config) (key : string) : outcome (string * bool) :=
  match fromCache c (strCache c) key with
  | Some value => Ret (value, true) c
  | None =>
    call Get c key [] as (val, ok), c in
    if negb ok then Ret ("", false) c
    else
      match toString (ParseEnv (opts c)) val with
      | Some value =>
        Ret (value, true)
            (if EnableCache (opts c)
             then setStrCache (<[key := value]> (strCache c)) c else c)
      | None =>
        Ret ("", false)
            (addError (Errorf ("value cannot be convert to string of the key '"
                               ++ key ++ "'")) c)
      end
  end.

Definition DefString (c : Config) (key : string) (defVal : list string)
  : outcome string :=
  call String c key as (value, ok), c in
  Ret (if ok then value else hd "" defVal) c.

Definition Int (c : Config) (key : string) : outcome (Z * bool) :=
  call String c key as (rawVal, ok), c in
  if negb ok then Ret (0, false) c
  else
    match Go.Atoi rawVal with
    | Some value => Ret (value, true) (addError errNil c)
    | None => Ret (0, false) c
    end.

Definition Int64 (c : Config) (key : string) : outcome (Z * bool) :=
  call Int c key as (intVal, ok), c in
  if ok then Ret (int64 intVal, true) c else Ret (0, false) c.

(** *** Composite types *)

(** The loop of [Ints] over a [[]interface{}], started with the elements
    appended so far: the slice it ends with, and the text that did not
    parse when it stopped early. *)
Fixpoint atoiEach (arr : list Z) (typeData : list value)
  : list Z * option string :=
  match typeData with
  | [] => (arr, None)
  | v :: vs =>
    match Go.Atoi (Sprint fmtOther v) with
    | None => (arr, Some (Sprint fmtOther v))
    | Some iv => atoiEach (arr ++ [iv]) vs
    end
  end.

Definition Ints (c : Config) (key : string) : outcome (list Z * bool) :=
  call Get c key [] as (rawVal, ok), c in
  if negb ok then Ret ([], false) c
  else
    match rawVal with
    | VInts typeData => Ret (typeData, true) c
    | VSlice typeData =>
      match atoiEach [] typeData with
      | (arr, None) => Ret (arr, true) c
      | (arr, Some num) => Ret (arr, false) (addError (NumError num) c)
      end
    | _ =>
      Ret ([], false)
          (addError (Errorf ("value cannot be convert to []int, key is '"
                             ++ key ++ "'")) c)
    end.

(** The [switch] of [Strings]. *)
Definition toStrings (rawVal : value) : option (list string) :=
  match rawVal with
  | VStrings typeData => Some typeData
  | VSlice typeData => Some (Sprint fmtOther <$> typeData)
  | _ => None
  end.

Definition Strings (c : Config) (key : string) : outcome (list string * bool) :=
  match fromCache c (sArrCache c) key with
  | Some arr => Ret (arr, true) c
  | None =>
    call Get c key [] as (rawVal, ok), c in
    if negb ok then Ret ([], false) c
    else
      match toStrings rawVal with
      | Some arr =>
        Ret (arr, true)
            (if EnableCache (opts c)
             then setSArrCache (<[key := arr]> (sArrCache c)) c else c)
      | None =>
        Ret ([], false)
            (addError (Errorf ("value cannot be convert to []string, key is '"
                               ++ key ++ "'")) c)
      end
  end.

(** The [switch] of [StringMap].  The entries of a
    [map[interface{}]interface{}] are visited in the order of the list. *)
Definition toStringMap (rawVal : value) : option (gmap string string) :=
  match rawVal with
  | VMapStrStr typeData => Some typeData
  | VMapStrAny typeData => Some (Sprint fmtOther <$> typeData)
  | VMapAnyAny typeData =>
    Some (foldl (fun mp kv => <[Sprint fmtOther kv.1 := Sprint fmtOther kv.2]> mp) ∅ typeData)
  | _ => None
  end.

Definition StringMap (c : Config) (key : string)
  : outcome (gmap string string * bool) :=
  match fromCache c (sMapCache c) key with
  | Some mp => Ret (mp, true) c
  | None =>
    call Get c key [] as (rawVal, ok), c in
    if negb ok then Ret (∅, false) c
    else
      match toStringMap rawVal with
      | Some mp =>
        Ret (mp, true)
            (if EnableCache (opts c)
             then setSMapCache (<[key := mp]> (sMapCache c)) c else c)
      | None =>
        Ret (∅, false)
            (addError (Errorf ("value cannot be convert to map[string]string, key is '"
                               ++ key ++ "'")) c)
      end
  end.

(** The loops of [IntMap], over the entries in the order given, started
    with the map filled so far. *)
Fixpoint atoiEntries (mp : gmap string Z) (typeData : list (value * value))
  : gmap string Z * option string :=
  match typeData with
  | [] => (mp, None)
  | (k, v) :: kvs =>
    match Go.Atoi (Sprint fmtOther v) with
    | None => (mp, Some (Sprint fmtOther v))
    | Some iv => atoiEntries (<[Sprint fmtOther k := iv]> mp) kvs
    end
  end.

(** The entries of a [map[string]interface{}], the keys as values. *)
Definition entries (m : gmap string value) : list (value * value) :=
  prod_map VStr id <$> map_to_list m.

Definition IntMap (c : Config) (key : string) : outcome (gmap string Z * bool) :=
  call Get c key [] as (rawVal, ok), c in
  if negb ok then Ret (∅, false) c
  else
    let loop typeData :=
      match atoiEntries ∅ typeData with
      | (mp, None) => Ret (mp, true) c
      | (mp, Some num) => Ret (mp, false) (addError (NumError num) c)
      end in
    match rawVal with
    | VMapStrInt typeData => Ret (typeData, true) c
    | VMapStrAny typeData => loop (entries typeData)
    | VMapAnyAny typeData => loop typeData
    | _ =>
      Ret (∅, false)
          (addError (Errorf ("value cannot be convert to map[string]int, key is '"
                             ++ key ++ "'")) c)
    end.

(** *** The accessors with a default, and booleans *)


Definition DefInt (c : Config) (key : string) (defVal : list Z) : outcome Z :=
  call Int c key as (value, ok), c in
  Ret (if ok then value else hd 0 defVal) c.


(** [DefInt64] asks [Int], not [Int64]. *)
Definition DefInt64 (c : Config) (key : string) (defVal : list Z) : outcome Z :=
  call Int c key as (intVal, ok), c in
  Ret (if ok then int64 intVal else hd 0 defVal) c.


(** [strings.ToLower] on the runes of a text that is not ASCII. *)
Variable lowerUnicode : string -> string.

(** The [switch] of [Bool] over the text in small letters. *)
Definition toBool (lowerCase : string) : option bool :=
  if existsb (String.eqb lowerCase) [""; "0"; "false"; "no"] then Some false
  else if existsb (String.eqb lowerCase) ["1"; "true"; "yes"] then Some true
  else None.

Definition Bool (c : Config) (key : string) : outcome (bool * bool) :=
  call String c key as (rawVal, ok), c in
  if negb ok then Ret (false, false) c
  else
    let lowerCase := Go.ToLower lowerUnicode rawVal in
    match toBool lowerCase with
    | Some value => Ret (value, true) c
    | None =>
      Ret (false, false)
          (addError (Errorf ("the value '" ++ lowerCase
                             ++ "' cannot be convert to bool")) c)
    end.

Definition DefBool (c : Config) (key : string) (defVal : list bool)
  : outcome bool :=
  call Bool c key as (value, ok), c in
  Ret (if ok then value else hd false defVal) c.


(** [IsEmpty]: [len(c.data) == 0]. *)
Definition IsEmpty (c : Config) : bool := Nat.eqb (size (data c)) 0.

(** *** Structure mapping

    [JSONEncoder] and [JSONDecoder] are package variables set elsewhere;
    the decoder writes through the pointer [v], also when it fails. *)

Variable target : Type.
Variable JSONEncoder : value -> string + error.
Variable JSONDecoder : string -> target -> target * option error.

(** The result is the target behind [v] after the call, and [err].  The
    [err] that takes the decoder's result is the one declared by
    [blob, err := JSONEncoder(data)] inside the block of [if ok]; the
    final [return] gives back the result parameter, which nothing set. *)
Definition Structure (c : Config) (key : string) (v : target)
  : outcome (target * option error) :=
  call (if String.eqb key "" then Ret (VMapStrAny (data c), true) c
        else Get c key []) as (data, ok), c in
  if ok then
    match JSONEncoder data with
    | inr err => Ret (v, Some err) c
    | inl blob =>
      let '(v', _) := JSONDecoder blob v in
      Ret (v', None) c
    end
  else Ret (v, None) c.

(** [MapStruct] and [MapStructure] are other names of [Structure]. *)
Definition MapStruct (c : Config) (key : string) (v : target)
  : outcome (target * option error) := Structure c key v.

Definition MapStructure (c : Config) (key : string) (v : target)
  : outcome (target * option error) := Structure c key v.

End Accessors.

End Read.

(** ** The earlier accessors (src/config_get.go) *)

Module ConfigGet.

Section Accessors.

Variable env : gmap string string.
Variable fmtOther : value -> string.

(** One step of the walk of this [Get].  [Return] is a bare [return]: the
    result [value] is still nil, and [ok] is what the last assignment
    left in it. *)
Inductive step : Type :=
| Descend (item : value)
| Return (ok : bool)
| Fault (p : panic).

Definition child (item : value) (k : string) : step :=
  match item with
  | VMapStrAny m =>
    match m !! k with
    | Some v => Descend v
    | None => Return false
    end
  | VMapAnyAny m =>
    match lookupAny k m with
    | Some v => Descend v
    | None => Return false
    end
  | VSlice arrItem =>
    match Go.Atoi k with
    | None => Return true
    | Some i =>
      if Z.of_nat (length arrItem) <? i then Return true
      else match at_index arrItem i with
           | inl x => Descend x
           | inr p => Fault p
           end
    end
  | _ => Return false
  end.

Fixpoint walk (item : value) (keys : list string) : step :=
  match keys with
  | [] => Descend item
  | k :: ks =>
    match child item k with
    | Descend item' => walk item' ks
    | s => s
    end
  end.

Definition Get (c : Config) (key : string) (findByPath : list bool)
  : outcome (value * bool) :=
  let key := Go.Trim (Go.TrimSpace key) "." in
  if String.eqb key "" then Ret (VNil, false) c
  else
    match data c !! key with
    | Some value => Ret (value, true) c
    | None =>
      if Read.pathDisabled findByPath then Ret (VNil, false) c
      else if negb (Go.Contains key ".") then Ret (VNil, false) c
      else
        match Go.Split key "." with
        | [] => Ret (VNil, false) c
        | topK :: rest =>
          match data c !! topK with
          | None => Ret (VNil, false) c
          | Some item =>
            match walk item rest with
            | Descend item' => Ret (item', true) c
            | Return ok => Ret (VNil, ok) c
            | Fault p => Panic p
            end
          end
        end
    end.

(** The branch of [GetString] taken for a string that starts with ["${"]. *)
Definition parseEnv (value : string) : string :=
  let str := Go.Trim (Go.TrimSpace value) "${}" in
  let ss := Go.SplitN2 str "|" in
  let '(name, def) :=
    match ss with
    | [n; d] => (Go.TrimSpace n, Go.TrimSpace d)
    | _ => (hd "" ss, "")
    end in
  let value := Getenv env name in
  if String.eqb value "" then def else value.

Definition GetString (c : Config) (key : string) : outcome (string * bool) :=
  call Get c key [] as (val, ok), c in
  if negb ok then Ret ("", false) c
  else
    match val with
    | VBool _ | VInt KInt _ | VInt KInt64 _ => Ret (Sprint fmtOther val, true) c
    | VStr _ =>
      let value := Sprint fmtOther val in
      Ret (if ParseEnv (opts c) && Go.HasPrefix value "${"
           then parseEnv value else value, true) c
    | _ => Ret ("", false) c
    end.

(** After a failed [Atoi] the bare [return] gives back the zero [value]
    and the [ok] that [GetString] returned, which is true there. *)
Definition GetInt (c : Config) (key : string) : outcome (Z * bool) :=
  call GetString c key as (rawVal, ok), c in
  if negb ok then Ret (0, false) c
  else
    match Go.Atoi rawVal with
    | Some value => Ret (value, true) c
    | None => Ret (0, ok) c
    end.

(** [intVal, ok := c.GetInt(key)] declares an [ok] of its own in the [if];
    the result [ok] keeps its zero value. *)
Definition GetInt64 (c : Config) (key : string) : outcome (Z * bool) :=
  call GetInt c key as (intVal, ok), c in
  Ret (if ok then int64 intVal else 0, false) c.

Definition GetIntArr (c : Config) (key : string) : outcome (list Z * bool) :=
  call Get c key [] as (rawVal, ok), c in
  if negb ok then Ret ([], false) c
  else
    match rawVal with
    | VSlice l =>
      match Read.atoiEach fmtOther [] l with
      | (arr, None) => Ret (arr, true) c
      | (arr, Some _) => Ret (arr, false) c
      end
    | _ => Ret ([], false) c
    end.

(** *** The accessors with a default, booleans, and composite types *)

Definition DefString (c : Config) (key def : string) : outcome string :=
  call GetString c key as (value, ok), c in
  Ret (if ok then value else def) c.

Definition DefInt (c : Config) (key : string) (def : Z) : outcome Z :=
  call GetInt c key as (value, ok), c in
  Ret (if ok then value else def) c.

(** [DefInt64] asks [GetInt], not [GetInt64]. *)
Definition DefInt64 (c : Config) (key : string) (def : Z) : outcome Z :=
  call GetInt c key as (intVal, ok), c in
  Ret (if ok then int64 intVal else def) c.

Variable lowerUnicode : string -> string.

Definition GetBool (c : Config) (key : string) : outcome (bool * bool) :=
  call GetString c key as (rawVal, ok), c in
  if negb ok then Ret (false, false) c
  else
    match Read.toBool (Go.ToLower lowerUnicode rawVal) with
    | Some value => Ret (value, true) c
    | None => Ret (false, false) c
    end.

Definition DefBool (c : Config) (key : string) (def : bool) : outcome bool :=
  call GetBool c key as (value, ok), c in
  Ret (if ok then value else def) c.

(** The loops are those of [Read.IntMap]; no error is logged. *)
Definition GetIntMap (c : Config) (key : string)
  : outcome (gmap string Z * bool) :=
  call Get c key [] as (rawVal, ok), c in
  if negb ok then Ret (∅, false) c
  else
    let loop typeData :=
      match Read.atoiEntries fmtOther ∅ typeData with
      | (mp, None) => Ret (mp, true) c
      | (mp, Some _) => Ret (mp, false) c
      end in
    match rawVal with
    | VMapStrAny m => loop (Read.entries m)
    | VMapAnyAny m => loop m
    | _ => Ret (∅, false) c
    end.

Definition GetStringArr (c : Config) (key : string)
  : outcome (list string * bool) :=
  match Read.fromCache c (sArrCache c) key with
  | Some arr => Ret (arr, true) c
  | None =>
    call Get c key [] as (rawVal, ok), c in
    if negb ok then Ret ([], false) c
    else
      match rawVal with
      | VSlice l =>
        let arr := Sprint fmtOther <$> l in
        Ret (arr, true)
            (if EnableCache (opts c)
             then setSArrCache (<[key := arr]> (sArrCache c)) c else c)
      | _ => Ret ([], false) c
      end
  end.

Definition toStringMap (rawVal : value) : option (gmap string string) :=
  match rawVal with
  | VMapStrAny m => Some (Sprint fmtOther <$> m)
  | VMapAnyAny m =>
    Some (foldl (fun mp kv => <[Sprint fmtOther kv.1 := Sprint fmtOther kv.2]> mp) ∅ m)
  | _ => None
  end.

Definition GetStringMap (c : Config) (key : string)
  : outcome (gmap string string * bool) :=
  match Read.fromCache c (sMapCache c) key with
  | Some mp => Ret (mp, true) c
  | None =>
    call Get c key [] as (rawVal, ok), c in
    if negb ok then Ret (∅, false) c
    else
      match toStringMap rawVal with
      | Some mp =>
        Ret (mp, true)
            (if EnableCache (opts c)
             then setSMapCache (<[key := mp]> (sMapCache c)) c else c)
      | None => Ret (∅, false) c
      end
  end.

Variable target : Type.
Variable Marshal : value -> string + error.
Variable Unmarshal : string -> target -> target * option error.

(** As in [Read.Structure], the [err] assigned from [json.Unmarshal] is
    the one [blob, err := json.Marshal(rawVal)] declared in the [if]. *)
Definition GetStructure (c : Config) (key : string) (v : target)
  : outcome (target * option error) :=
  call Get c key [] as (rawVal, ok), c in
  if ok then
    match Marshal rawVal with
    | inr err => Ret (v, Some err) c
    | inl blob =>
      let '(v', _) := Unmarshal blob v in
      Ret (v', None) c
    end
  else Ret (v, None) c.

(** [MapStructure] is another name of [GetStructure]. *)
Definition MapStructure (c : Config) (key : string) (v : target)
  : outcome (target * option error) := GetStructure c key v.

End Accessors.

End ConfigGet.

(** ** Auxiliary notions of the statements *)

Fixpoint all (p : ascii -> bool) (s : string) : bool :=
  match s with
  | EmptyString => true
  | String a r => p a && all p r
  end.

(** A byte other than the dollar, and a byte other than the bar. *)
Definition noDollar (a : ascii) : bool := negb (Ascii.eqb a "$").
Definition noBar (a : ascii) : bool := negb (Ascii.eqb a "|").

(** The token [${body}]. *)
Definition token (body : string) : string := "${" ++ body ++ "}".

(** What stands in for [${name|def}] and for [${name}]. *)
Definition withDefault (env : gmap string string) (name def : string)
  : string :=
  let envVal := Getenv env (Go.TrimSpace name) in
  if String.eqb envVal "" then Go.TrimSpace def else envVal.

Definition orItself (env : gmap string string) (name : string) : string :=
  let envVal := Getenv env name in
  if String.eqb envVal "" then token name else envVal.

(** [v] formats and parses as the integer [n]. *)
Definition parsesAs (fmtOther : value -> string) (v : value) (n : Z) : Prop :=
  Go.Atoi (Sprint fmtOther v) = Some n.

(** The second call is served by the cache: whatever Value Store the
    instance holds by then, the call returns [r] and leaves the instance
    as it is. *)
Definition servedFromCache {R : Type} (f : Config -> string -> outcome (R * bool))
    (c : Config) (key : string) (r : R) : Prop :=
  forall d, f (withData d c) key = Ret (r, true) (withData d c).

(** The number a decimal numeral stands for, behind the digits read so far. *)
Fixpoint uintValue (d : Decimal.uint) (acc : Z) : Z :=
  match d with
  | Decimal.Nil => acc
  | Decimal.D0 l => uintValue l (10 * acc)
  | Decimal.D1 l => uintValue l (10 * acc + 1)
  | Decimal.D2 l => uintValue l (10 * acc + 2)
  | Decimal.D3 l => uintValue l (10 * acc + 3)
  | Decimal.D4 l => uintValue l (10 * acc + 4)
  | Decimal.D5 l => uintValue l (10 * acc + 5)
  | Decimal.D6 l => uintValue l (10 * acc + 6)
  | Decimal.D7 l => uintValue l (10 * acc + 7)
  | Decimal.D8 l => uintValue l (10 * acc + 8)
  | Decimal.D9 l => uintValue l (10 * acc + 9)
  end.

(** An integer of the 64-bit [int]. *)
Definition fitsInt (n : Z) : Prop := Go.minInt <= n <= Go.maxInt.

(** An index the element expression of Go faults on, as far as the guard
    of [Get] lets it through: negative, or equal to the length. *)
Definition outOfRange (p : panic) : Prop :=
  match p with
  | IndexOutOfRange i n => i < 0 \/ i = Z.of_nat n
  end.





(** An ASCII byte that is no capital letter. *)
Definition small (a : ascii) : bool := Go.isASCII a && negb (Go.between 65 90 a).

(** [c'] holds the options and the Value Store of [c], and the errors of
    [c] followed by further ones. *)
Definition sameStore (c c' : Config) : Prop :=
  opts c' = opts c /\ data c' = data c /\
  exists es, errors c' = (errors c ++ es)%list.

Definition sameCaches (c c' : Config) : Prop :=
  strCache c' = strCache c /\ sArrCache c' = sArrCache c /\
  sMapCache c' = sMapCache c.

(** ** Sample instances

    The examples format no float and no composite value, so any text does
    for [fmtOther]. *)

Module Sample.

Definition fmtOther (v : value) : string := "?".

Definition options (cache parseEnv : bool) : Options :=
  {| Readonly := false; EnableCache := cache; ParseEnv := parseEnv |}.

Definition config (o : Options) (d : gmap string value) : Config :=
  {| opts := o; data := d; strCache := ∅; sArrCache := ∅; sMapCache := ∅;
     errors := [] |}.

Definition plain : Options := options false false.

Definition int (n : Z) : value := VInt KInt n.

(** [arr: [1, 2, 3]], as a decoder of JSON delivers it, and the typed
    slices and maps a direct [Set] stores. *)
Definition arrays : Config :=
  config plain
    (<["arr" := VSlice [int 1; int 2; int 3]]>
     (<["ids" := VInts [10; 20; 30]]>
      (<["names" := VStrings ["a"; "b"]]> ∅))).

Definition maps : Config :=
  config plain
    (<["limits" := VMapStrInt (<["max" := 9]> ∅)]>
     (<["labels" := VMapStrStr (<["env" := "prod"]> ∅)]>
      (<["db" := VMapStrAny (<["port" := int 5432]> ∅)]>
       (<["yaml" := VMapAnyAny [(VStr "on", VBool true)]]> ∅)))).

(** A JSON encoder for scalars and for objects of scalars, and decoders
    into an [int] and into a [json.RawMessage]. *)
Definition quote : string := String (ascii_of_nat 34) "".

Definition scalar (v : value) : option string :=
  match v with
  | VNil => Some "null"
  | VBool _ | VInt _ _ => Some (Sprint fmtOther v)
  | VStr s => Some (quote ++ s ++ quote)
  | _ => None
  end.

Definition member (kv : string * value) : option string :=
  (fun t => quote ++ kv.1 ++ quote ++ ":" ++ t) <$> scalar kv.2.

Definition unsupported : error := CodecError "json: unsupported type".

Definition Marshal (v : value) : string + error :=
  match v with
  | VMapStrAny m =>
    match mapM member (map_to_list m) with
    | Some ts => inl ("{" ++ String.concat "," ts ++ "}")
    | None => inr unsupported
    end
  | _ =>
    match scalar v with
    | Some t => inl t
    | None => inr unsupported
    end
  end.

Definition mismatch : error :=
  CodecError "json: cannot unmarshal into Go value of type int".

Definition UnmarshalInt (blob : string) (v : Z) : Z * option error :=
  match Go.Atoi blob with
  | Some n => (n, None)
  | None => (v, Some mismatch)
  end.

Definition UnmarshalRaw (blob : string) (v : string) : string * option error :=
  (blob, None).

(** [port: "abc"], to be mapped to an [int]. *)
Definition service : Config :=
  config plain (<["port" := VStr "abc"]> ∅).

(** Stored strings with a token, read with [ParseEnv] on and no cache. *)
Definition texts : Config :=
  config (options false true)
    (<["tok" := VStr "${ENV_X|fallback}"]>
     (<["path" := VStr "${ENV_X|fallback}/bin"]>
      (<["inner" := VStr "bin/${ENV_X | fallback}"]>
       (<["home" := VStr "${ENV_X}"]> ∅)))).

Definition unset : gmap string string := ∅.
Definition set : gmap string string := <["ENV_X" := "v"]> ∅.

(** [n: 5] and [s: "abc"]. *)
Definition numbers : Config :=
  config plain (<["n" := int 5]> (<["s" := VStr "abc"]> ∅)).

(** [xs: [1, "x", 3]]. *)
Definition mixed : Config :=
  config plain
    (<["xs" := VSlice [int 1; VStr "x"; int 3]]> ∅).

(** The stored strings and sequences above, read with the cache on. *)
Definition cached : Config :=
  config (options true true)
    (<["tok" := VStr "${ENV_X|fallback}"]>
     (<["arr" := VSlice [int 1; int 2; int 3]]> ∅)).

(** [cached] after [String "tok"] has returned. *)
Definition filled : Config :=
  setStrCache (<["tok" := "fallback"]> ∅) cached.

End Sample.

(** * Theorems *)

(** Closed statements about the samples are settled by evaluation. *)
Ltac evaluate :=
  repeat match goal with
  | |- _ /\ _ => split
  end;
  vm_compute; first [reflexivity | exact I | discriminate].

(** ** The library functions on samples *)

Example Atoi_samples :
  Go.Atoi "12" = Some 12 /\ Go.Atoi "-1" = Some (-1) /\ Go.Atoi "+7" = Some 7 /\
  Go.Atoi "" = None /\ Go.Atoi "-" = None /\ Go.Atoi "1x" = None /\
  Go.Atoi "9223372036854775807" = Some Go.maxInt /\
  Go.Atoi "9223372036854775808" = None /\
  Go.Atoi "-9223372036854775808" = Some Go.minInt.
Proof. evaluate. Qed.

Example strings_samples :
  Go.TrimSpace "  a b  " = "a b" /\ Go.Trim "..a.b." "." = "a.b" /\
  Go.Split "a.b.c" "." = ["a"; "b"; "c"] /\ Go.Split "a..b" "." = ["a"; ""; "b"] /\
  Go.SplitN2 "A|b|c" "|" = ["A"; "b|c"] /\ Go.SplitN2 "A" "|" = ["A"] /\
  Go.slice 2 1 "${AB}" = "AB" /\ Go.Itoa (-42) = "-42" /\ Go.Itoa 0 = "0".
Proof. evaluate. Qed.

Example regexp_samples :
  Go.FindAllString "${GOPATH}/${APP_ENV | prod}/dir" = ["${GOPATH}"; "${APP_ENV | prod}"] /\
  Go.FindAllString "${}${a.b}${${x}" = ["${x}"] /\
  Go.Replace [("${A}", "1"); ("${B}", "${A}")] "x${B}${A}${B}y" = "x${A}1${A}y".
Proof. evaluate. Qed.

(** ** Path resolution *)

Section Index.

Context {A : Type} (inj : A -> value) (typeData : list A) (k : string).

Lemma at_index_within (i : Z) :
  0 <= i < Z.of_nat (length typeData) ->
  exists x, typeData !! Z.to_nat i = Some x /\ at_index typeData i = inl x.
Proof.
  intros [Hlo Hhi]. unfold at_index.
  destruct (Z.ltb_spec i 0) as [?|_]; [lia|].
  destruct (lookup_lt_is_Some_2 typeData (Z.to_nat i)) as [x Hx]; [lia|].
  exists x. by rewrite Hx.
Qed.

Lemma at_index_outside (i : Z) :
  i < 0 \/ Z.of_nat (length typeData) <= i ->
  at_index typeData i = inr (IndexOutOfRange i (length typeData)).
Proof.
  intros Hi. unfold at_index.
  destruct (Z.ltb_spec i 0) as [?|Hge]; [done|].
  rewrite lookup_ge_None_2; [done|lia].
Qed.

(** A segment that is no integer stops the walk with the error of [Atoi]. *)
Lemma index_no_integer :
  Go.Atoi k = None -> Read.index inj typeData k = Stop [NumError k].
Proof. intros H. unfold Read.index. by rewrite H. Qed.

(** An index above the length stops the walk. *)
Lemma index_above (i : Z) :
  Go.Atoi k = Some i -> Z.of_nat (length typeData) < i ->
  Read.index inj typeData k = Stop [errNil].
Proof.
  intros H Hi. unfold Read.index. rewrite H.
  destruct (Z.ltb_spec (Z.of_nat (length typeData)) i); [done|lia].
Qed.

(** An index in [0, len) descends to the element. *)
Lemma index_within (i : Z) :
  Go.Atoi k = Some i -> 0 <= i < Z.of_nat (length typeData) ->
  exists x, typeData !! Z.to_nat i = Some x /\
            Read.index inj typeData k = Descend (inj x).
Proof.
  intros H Hi. unfold Read.index. rewrite H.
  destruct (Z.ltb_spec (Z.of_nat (length typeData)) i); [lia|].
  destruct (at_index_within i Hi) as (x & Hx & ->). eauto.
Qed.

(** The guard [len(typeData) < i] lets the length itself through, and
    every negative index: the element expression then panics. *)
Lemma index_at_length :
  Go.Atoi k = Some (Z.of_nat (length typeData)) ->
  Read.index inj typeData k =
  Fault (IndexOutOfRange (Z.of_nat (length typeData)) (length typeData)).
Proof.
  intros H. unfold Read.index. rewrite H, Z.ltb_irrefl.
  rewrite at_index_outside; [done|lia].
Qed.

Lemma index_negative (i : Z) :
  Go.Atoi k = Some i -> i < 0 ->
  Read.index inj typeData k = Fault (IndexOutOfRange i (length typeData)).
Proof.
  intros H Hi. unfold Read.index. rewrite H.
  destruct (Z.ltb_spec (Z.of_nat (length typeData)) i); [lia|].
  rewrite at_index_outside; [done|lia].
Qed.

End Index.

(** The six container shapes [Read.Get] walks through descend to the child
    on a present key. *)
Lemma child_supported_maps (key k : string) :
  (forall m s, m !! k = Some s ->
     Read.child key (VMapStrStr m) k = Descend (VStr s)) /\
  (forall m v, m !! k = Some v ->
     Read.child key (VMapStrAny m) k = Descend v) /\
  (forall m v, lookupAny k m = Some v ->
     Read.child key (VMapAnyAny m) k = Descend v).
Proof. repeat split; intros * H; simpl; by rewrite H. Qed.

Lemma child_supported_sequences (key k : string) (i : Z) :
  Go.Atoi k = Some i ->
  (forall l, 0 <= i < Z.of_nat (length l) ->
     exists n, l !! Z.to_nat i = Some n /\
               Read.child key (VInts l) k = Descend (VInt KInt n)) /\
  (forall l, 0 <= i < Z.of_nat (length l) ->
     exists s, l !! Z.to_nat i = Some s /\
               Read.child key (VStrings l) k = Descend (VStr s)) /\
  (forall l, 0 <= i < Z.of_nat (length l) ->
     exists v, l !! Z.to_nat i = Some v /\
               Read.child key (VSlice l) k = Descend v).
Proof.
  intros Hk. repeat split; intros l Hi; simpl.
  - apply (index_within (VInt KInt) l k i Hk Hi).
  - apply (index_within VStr l k i Hk Hi).
  - apply (index_within id l k i Hk Hi).
Qed.

(** A [map[string]int] is none of the cases of the [switch]. *)
Lemma child_map_of_ints (key k : string) (m : gmap string Z) :
  Read.child key (VMapStrInt m) k =
  Stop [Errorf ("cannot get value of the key '" ++ key ++ "'")].
Proof. reflexivity. Qed.

(** [Read.IntMap] does take a [map[string]int] at the end of a path. *)
Lemma IntMap_map_of_ints (fmtOther : value -> string) (c : Config)
    (key : string) (m : gmap string Z) :
  Read.Get c key [] = Ret (VMapStrInt m, true) c ->
  Read.IntMap fmtOther c key = Ret (m, true) c.
Proof. intros H. unfold Read.IntMap. by rewrite H. Qed.

(** C1. [Get] and the accessors built on it fault on a sequence index that
    equals the length or is negative, in both generations; the earlier
    [Get] moreover reports ok=true, with a nil value, for a segment that
    is no integer, and the earlier [GetInt] reports ok=true, with 0, for
    a text that is no integer. *)
Theorem Get_faults_on_index :
  faults (Read.Get Sample.arrays "arr.3" []) /\
  faults (Read.Get Sample.arrays "arr.-1" []) /\
  faults (Read.String ∅ Sample.fmtOther Sample.arrays "arr.3") /\
  faults (Read.Int ∅ Sample.fmtOther Sample.arrays "arr.3") /\
  faults (Read.Ints Sample.fmtOther Sample.arrays "arr.3") /\
  faults (Read.Strings Sample.fmtOther Sample.arrays "names.-1") /\
  faults (ConfigGet.Get Sample.arrays "arr.3" []) /\
  faults (ConfigGet.Get Sample.arrays "arr.-1" []) /\
  result (ConfigGet.Get Sample.arrays "arr.x" []) = Some (VNil, true) /\
  result (ConfigGet.GetInt ∅ Sample.fmtOther Sample.service "port") = Some (0, true).
Proof. evaluate. Qed.

(** C2. On a sequence of length n the segment n is let through by the
    guard and the element expression panics, for each of the three
    sequence shapes; a segment below n descends; the earlier [Get]
    returns ok=true for a segment that is no integer or is above n. *)
Theorem Get_index_equal_to_length :
  Read.Get Sample.arrays "ids.3" [] = Panic (IndexOutOfRange 3 3) /\
  Read.Get Sample.arrays "names.2" [] = Panic (IndexOutOfRange 2 2) /\
  Read.Get Sample.arrays "arr.3" [] = Panic (IndexOutOfRange 3 3) /\
  Read.Get Sample.arrays "arr.2" [] = Ret (Sample.int 3, true) Sample.arrays /\
  result (Read.Get Sample.arrays "arr.4" []) = Some (VNil, false) /\
  result (Read.Get Sample.arrays "arr.two" []) = Some (VNil, false) /\
  ConfigGet.Get Sample.arrays "arr.3" [] = Panic (IndexOutOfRange 3 3) /\
  result (ConfigGet.Get Sample.arrays "arr.4" []) = Some (VNil, true) /\
  result (ConfigGet.Get Sample.arrays "arr.two" []) = Some (VNil, true).
Proof. evaluate. Qed.

(** C3. [Read.Get] does not descend through a [map[string]int], which is
    no case of its [switch]: the key that is present is reported as not
    found.  The earlier [Get] descends through none of the typed shapes. *)
Theorem Get_map_of_ints_unsupported :
  Read.Get Sample.maps "limits.max" [] =
    Ret (VNil, false)
        (addError (Errorf "cannot get value of the key 'limits.max'") Sample.maps) /\
  Read.Get Sample.maps "labels.env" [] = Ret (VStr "prod", true) Sample.maps /\
  Read.Get Sample.maps "db.port" [] = Ret (Sample.int 5432, true) Sample.maps /\
  Read.Get Sample.maps "yaml.on" [] = Ret (VBool true, true) Sample.maps /\
  Read.Get Sample.arrays "ids.0" [] = Ret (Sample.int 10, true) Sample.arrays /\
  Read.Get Sample.arrays "names.1" [] = Ret (VStr "b", true) Sample.arrays /\
  result (ConfigGet.Get Sample.maps "limits.max" []) = Some (VNil, false) /\
  result (ConfigGet.Get Sample.maps "labels.env" []) = Some (VNil, false) /\
  result (ConfigGet.Get Sample.arrays "ids.0" []) = Some (VNil, false) /\
  result (ConfigGet.Get Sample.arrays "names.1" []) = Some (VNil, false).
Proof. evaluate. Qed.

(** ** Structure mapping *)

Section Structure.

Context {target : Type}.
Variable encode : value -> string + error.
Variable decode : string -> target -> target * option error.

(** What the two accessors do once the raw value is there. *)
Lemma Structure_found (c c' : Config) (key : string) (v : target) (raw : value) :
  key <> "" ->
  Read.Get c key [] = Ret (raw, true) c' ->
  Read.Structure target encode decode c key v =
  match encode raw with
  | inr err => Ret (v, Some err) c'
  | inl blob => Ret ((decode blob v).1, None) c'
  end.
Proof.
  intros Hkey HGet. unfold Read.Structure.
  destruct (String.eqb_spec key "") as [?|_]; [done|].
  rewrite HGet. simpl. destruct (encode raw); [|done]. by destruct (decode _ _).
Qed.

Lemma GetStructure_found (c c' : Config) (key : string) (v : target) (raw : value) :
  ConfigGet.Get c key [] = Ret (raw, true) c' ->
  ConfigGet.GetStructure target encode decode c key v =
  match encode raw with
  | inr err => Ret (v, Some err) c'
  | inl blob => Ret ((decode blob v).1, None) c'
  end.
Proof.
  intros HGet. unfold ConfigGet.GetStructure.
  rewrite HGet. simpl. destruct (encode raw); [|done]. by destruct (decode _ _).
Qed.

(** An error of the encoder is returned. *)
Lemma Structure_encoder_error (c c' : Config) (key : string) (v : target)
    (raw : value) (err : error) :
  key <> "" ->
  Read.Get c key [] = Ret (raw, true) c' ->
  encode raw = inr err ->
  Read.Structure target encode decode c key v = Ret (v, Some err) c'.
Proof. intros Hkey HGet He. by rewrite (Structure_found c c' key v raw), He. Qed.

(** An error of the decoder is not: whatever the decoder answers, the
    error returned is nil. *)
Lemma Structure_decoder_error_dropped (c c' : Config) (key : string)
    (v : target) (raw : value) (blob : string) :
  key <> "" ->
  Read.Get c key [] = Ret (raw, true) c' ->
  encode raw = inl blob ->
  Read.Structure target encode decode c key v = Ret ((decode blob v).1, None) c'.
Proof. intros Hkey HGet He. by rewrite (Structure_found c c' key v raw), He. Qed.

Lemma GetStructure_decoder_error_dropped (c c' : Config) (key : string)
    (v : target) (raw : value) (blob : string) :
  ConfigGet.Get c key [] = Ret (raw, true) c' ->
  encode raw = inl blob ->
  ConfigGet.GetStructure target encode decode c key v =
  Ret ((decode blob v).1, None) c'.
Proof. intros HGet He. by rewrite (GetStructure_found c c' key v raw), He. Qed.

(** The empty key maps the whole Value Store. *)
Lemma Structure_empty_key (c : Config) (v : target) :
  Read.Structure target encode decode c "" v =
  match encode (VMapStrAny (data c)) with
  | inr err => Ret (v, Some err) c
  | inl blob => Ret ((decode blob v).1, None) c
  end.
Proof.
  unfold Read.Structure. simpl. destruct (encode _); [|done].
  by destruct (decode _ _).
Qed.

(** A key [Get] does not resolve leaves the target as it is, with a nil error. *)
Lemma Structure_not_found (c c' : Config) (key : string) (v : target) (raw : value) :
  key <> "" ->
  Read.Get c key [] = Ret (raw, false) c' ->
  Read.Structure target encode decode c key v = Ret (v, None) c'.
Proof.
  intros Hkey HGet. unfold Read.Structure.
  destruct (String.eqb_spec key "") as [?|_]; [done|]. by rewrite HGet.
Qed.

Lemma GetStructure_not_found (c c' : Config) (key : string) (v : target)
    (raw : value) :
  ConfigGet.Get c key [] = Ret (raw, false) c' ->
  ConfigGet.GetStructure target encode decode c key v = Ret (v, None) c'.
Proof. intros HGet. unfold ConfigGet.GetStructure. by rewrite HGet. Qed.

End Structure.

(** C4. The text "abc" is encoded, the decoder refuses it for an [int]
    target, and both accessors return a nil error all the same. *)
Theorem Structure_drops_decoder_error :
  exists blob,
    Sample.Marshal (VStr "abc") = inl blob /\
    Sample.UnmarshalInt blob 7 = (7, Some Sample.mismatch) /\
    Read.Structure Z Sample.Marshal Sample.UnmarshalInt Sample.service "port" 7
      = Ret (7, None) Sample.service /\
    ConfigGet.GetStructure Z Sample.Marshal Sample.UnmarshalInt
      Sample.service "port" 7 = Ret (7, None) Sample.service.
Proof. exists (Sample.quote ++ "abc" ++ Sample.quote). evaluate. Qed.

(** ** Byte strings *)

#[local] Arguments String.append !_ _ / : simpl nomatch.

Section Strings.

Implicit Types s t u : string.

Lemma append_assoc s t u : (s ++ t) ++ u = s ++ t ++ u.
Proof. induction s as [|a s IH]; simpl; [done|]. by rewrite IH. Qed.

Lemma append_empty_r s : s ++ "" = s.
Proof. induction s as [|a s IH]; simpl; [done|]. by rewrite IH. Qed.

Lemma rev_append_spec s t : Go.rev_append s t = Go.rev s ++ t.
Proof.
  unfold Go.rev. revert t.
  induction s as [|a s IH]; intros t; simpl; [done|].
  rewrite (IH (String a t)), (IH (String a "")). by rewrite append_assoc.
Qed.

Lemma rev_app s t : Go.rev (s ++ t) = Go.rev t ++ Go.rev s.
Proof.
  induction s as [|a s IH]; simpl.
  - by rewrite append_empty_r.
  - unfold Go.rev at 1 3. simpl.
    rewrite !rev_append_spec, IH. by rewrite append_assoc.
Qed.

Lemma rev_rev s : Go.rev (Go.rev s) = s.
Proof.
  induction s as [|a s IH]; [done|].
  unfold Go.rev at 2. simpl. rewrite rev_append_spec, rev_app, IH. done.
Qed.

Lemma drop_length_app s t : Go.drop (String.length s) (s ++ t) = t.
Proof. induction s as [|a s IH]; simpl; [by destruct t|done]. Qed.

Lemma HasPrefix_app s t : Go.HasPrefix (s ++ t) s = true.
Proof.
  induction s as [|a s IH]; simpl; [by destruct t|].
  by rewrite Ascii.eqb_refl.
Qed.

Lemma Contains_app s t sub :
  Go.HasPrefix t sub = true -> Go.Contains (s ++ t) sub = true.
Proof.
  intros H. induction s as [|a s IH].
  - simpl. destruct t; unfold Go.Contains; fold Go.Contains; by rewrite H.
  - simpl String.append. unfold Go.Contains; fold Go.Contains.
    rewrite IH. apply orb_true_r.
Qed.

End Strings.

(** ** Environment interpolation *)

Section Tokens.

Variable body : string.
Hypothesis body_not_empty : body <> "".
Hypothesis body_in_class : all Go.inClass body = true.

Lemma slice_token : Go.slice 2 1 (token body) = body.
Proof.
  unfold Go.slice, token. simpl Go.drop.
  rewrite rev_app. simpl. by rewrite rev_rev.
Qed.

Lemma span_body (post : string) :
  Go.span (body ++ String "}" post) = (body, String "}" post).
Proof using body_in_class.
  clear body_not_empty. induction body as [|a b IH]; [done|].
  simpl in *. apply andb_true_iff in body_in_class as [-> Hb].
  by rewrite (IH Hb).
Qed.

Lemma matchAt_token (post : string) :
  Go.matchAt (token body ++ post) = Some (token body).
Proof using body_not_empty body_in_class.
  unfold Go.matchAt, token. simpl.
  rewrite append_assoc. simpl. rewrite span_body.
  destruct body; [done|done].
Qed.

Lemma findAll_skip (s t : string) :
  Go.findAll (String.length s) (s ++ t) = Go.findAll 0 t.
Proof. induction s as [|a s IH]; simpl; [by destruct t|done]. Qed.

Lemma matchAt_plain (a : ascii) (s : string) :
  noDollar a = true -> Go.matchAt (String a s) = None.
Proof.
  unfold noDollar, Go.matchAt. simpl. intros H.
  by destruct (Ascii.eqb a "$").
Qed.

Lemma findAll_plain (pre s : string) :
  all noDollar pre = true -> Go.findAll 0 (pre ++ s) = Go.findAll 0 s.
Proof.
  induction pre as [|a pre IH]; simpl; [done|].
  intros [Ha Hpre]%andb_true_iff. rewrite (matchAt_plain _ _ Ha). auto.
Qed.

Lemma findAll_token (post : string) :
  Go.findAll 0 (token body ++ post) = token body :: Go.findAll 0 post.
Proof using body_not_empty body_in_class.
  pose proof (matchAt_token post) as Hm.
  unfold token in *. simpl in *. rewrite Hm. f_equal.
  apply (findAll_skip (body ++ "}") post).
Qed.

(** The tokens of a text with the one token [${body}] in it. *)
Lemma FindAllString_token (pre post : string) :
  all noDollar pre = true -> all noDollar post = true ->
  Go.FindAllString (pre ++ token body ++ post) = [token body].
Proof using body_not_empty body_in_class.
  intros Hpre Hpost. unfold Go.FindAllString.
  rewrite (findAll_plain _ _ Hpre), findAll_token.
  rewrite <- (append_empty_r post), (findAll_plain _ _ Hpost). done.
Qed.

Variable new : string.

Lemma replace_skip (s t : string) (pairs : list (string * string)) :
  Go.replace pairs (String.length s) (s ++ t) = Go.replace pairs 0 t.
Proof. induction s as [|a s IH]; simpl; [by destruct t|done]. Qed.

Lemma replace_plain (pre s : string) :
  all noDollar pre = true ->
  Go.replace [(token body, new)] 0 (pre ++ s) =
  pre ++ Go.replace [(token body, new)] 0 s.
Proof.
  induction pre as [|a pre IH]; simpl; [done|].
  intros [Ha Hpre]%andb_true_iff.
  unfold noDollar in Ha. destruct (Ascii.eqb a "$"); [done|].
  simpl. by rewrite (IH Hpre).
Qed.

Lemma replace_token (post : string) :
  Go.replace [(token body, new)] 0 (token body ++ post) =
  new ++ Go.replace [(token body, new)] 0 post.
Proof.
  pose proof (HasPrefix_app (token body) post) as Hp.
  unfold token in *. simpl in *. rewrite Hp. simpl. f_equal.
  apply (replace_skip (body ++ "}") post).
Qed.

(** The one token is replaced, the text around it is kept. *)
Lemma Replace_token (pre post : string) :
  all noDollar pre = true -> all noDollar post = true ->
  Go.Replace [(token body, new)] (pre ++ token body ++ post) = pre ++ new ++ post.
Proof.
  intros Hpre Hpost. unfold Go.Replace.
  rewrite (replace_plain _ _ Hpre), replace_token.
  rewrite <- (append_empty_r post) at 1. rewrite (replace_plain _ _ Hpost).
  simpl. by rewrite append_empty_r.
Qed.

End Tokens.

Lemma all_app (p : ascii -> bool) (s t : string) :
  all p (s ++ t) = all p s && all p t.
Proof. induction s as [|a s IH]; simpl; [done|]. by rewrite IH, andb_assoc. Qed.

Lemma cut_bar (n d : string) :
  all noBar n = true -> Go.cut (n ++ "|" ++ d) "|" = Some (n, d).
Proof.
  induction n as [|a n IH]; simpl in *; [done|].
  intros [Ha Hn]%andb_true_iff. unfold noBar in Ha.
  destruct (Ascii.eqb a "|"); [done|]. by rewrite (IH Hn).
Qed.

Lemma cut_no_bar (s : string) : all noBar s = true -> Go.cut s "|" = None.
Proof.
  induction s as [|a s IH]; simpl; [done|].
  intros [Ha Hs]%andb_true_iff. unfold noBar in Ha.
  destruct (Ascii.eqb a "|"); [done|]. by rewrite (IH Hs).
Qed.

(** The state a returning [Get] leaves differs by logged errors only. *)
Lemma Get_state (c c' : Config) (key : string) (findByPath : list bool)
    (r : value * bool) :
  Read.Get c key findByPath = Ret r c' -> exists es, c' = addErrors es c.
Proof.
  unfold Read.Get. intros H.
  repeat match type of H with
  | (if ?b then _ else _) = _ => destruct b
  | match ?x with _ => _ end = _ => destruct x
  end; try discriminate; inversion H; subst;
  first [ by exists [] | by exists [errInvalidKey] | by eexists ].
Qed.

Lemma addErrors_fields (es : list error) (c : Config) :
  opts (addErrors es c) = opts c /\ data (addErrors es c) = data c /\
  strCache (addErrors es c) = strCache c /\
  sArrCache (addErrors es c) = sArrCache c /\
  sMapCache (addErrors es c) = sMapCache c.
Proof.
  unfold addErrors. revert c.
  induction es as [|e es IH]; intros c; simpl; [done|].
  destruct (IH (addError e c)) as (-> & -> & -> & -> & ->). done.
Qed.

Section Interpolation.

Variable env : gmap string string.
Variable fmtOther : value -> string.

Lemma resolve_default (n d : string) :
  all noBar n = true ->
  Read.resolve env (token (n ++ "|" ++ d)) =
  (token (n ++ "|" ++ d), withDefault env n d).
Proof.
  intros Hn. unfold Read.resolve, Go.SplitN2.
  by rewrite slice_token, (cut_bar n d Hn).
Qed.

Lemma resolve_no_default (name : string) :
  all noBar name = true ->
  Read.resolve env (token name) = (token name, orItself env name).
Proof.
  intros Hn. unfold Read.resolve, Go.SplitN2.
  by rewrite slice_token, (cut_no_bar name Hn).
Qed.

Lemma parseEnvValue_token (pre body post : string) :
  body <> "" -> all Go.inClass body = true ->
  all noDollar pre = true -> all noDollar post = true ->
  Read.parseEnvValue env (pre ++ token body ++ post) =
  pre ++ (Read.resolve env (token body)).2 ++ post.
Proof.
  intros Hne Hclass Hpre Hpost. unfold Read.parseEnvValue.
  rewrite (Contains_app pre (token body ++ post) "${") by reflexivity.
  rewrite (FindAllString_token body Hne Hclass pre post Hpre Hpost).
  simpl. destruct (Read.resolve env (token body)) as [old new] eqn:Hr.
  assert (old = token body) as ->.
  { unfold Read.resolve in Hr. destruct (Go.SplitN2 _ _) as [|? [|? [|]]];
      by inversion Hr. }
  by apply Replace_token.
Qed.

(** [${NAME|default}] inside a text without further dollars: the value
    of NAME if it is set and not empty, the default otherwise. *)
Lemma parseEnvValue_default (pre n d post : string) :
  all Go.inClass n = true -> all noBar n = true -> all Go.inClass d = true ->
  all noDollar pre = true -> all noDollar post = true ->
  Read.parseEnvValue env (pre ++ token (n ++ "|" ++ d) ++ post) =
  pre ++ withDefault env n d ++ post.
Proof.
  intros Hn Hbar Hd Hpre Hpost.
  rewrite parseEnvValue_token; try done.
  - by rewrite resolve_default.
  - by destruct n.
  - by rewrite !all_app, Hn, Hd.
Qed.

(** [${NAME}] inside a text without further dollars: the value of NAME
    if it is set and not empty, the token itself otherwise. *)
Lemma parseEnvValue_no_default (pre name post : string) :
  name <> "" -> all Go.inClass name = true -> all noBar name = true ->
  all noDollar pre = true -> all noDollar post = true ->
  Read.parseEnvValue env (pre ++ token name ++ post) =
  pre ++ orItself env name ++ post.
Proof.
  intros Hne Hn Hbar Hpre Hpost.
  rewrite parseEnvValue_token; try done. by rewrite resolve_no_default.
Qed.

(** [Read.String] on a stored string, past the cache. *)
Lemma String_of_string (c c' : Config) (key s : string) :
  Read.fromCache c (strCache c) key = None ->
  Read.Get c key [] = Ret (VStr s, true) c' ->
  result (Read.String env fmtOther c key) =
  Some (if ParseEnv (opts c) then Read.parseEnvValue env s else s, true).
Proof.
  intros Hcache HGet. unfold Read.String. rewrite Hcache, HGet. simpl.
  destruct (Get_state _ _ _ _ _ HGet) as [es ->].
  destruct (addErrors_fields es c) as (-> & _). done.
Qed.

(** [Read.String] with [ParseEnv] on a stored [pre${NAME|default}post]. *)
Lemma String_substitutes_default (c c' : Config) (key pre n d post : string) :
  all Go.inClass n = true -> all noBar n = true -> all Go.inClass d = true ->
  all noDollar pre = true -> all noDollar post = true ->
  ParseEnv (opts c) = true ->
  Read.fromCache c (strCache c) key = None ->
  Read.Get c key [] = Ret (VStr (pre ++ token (n ++ "|" ++ d) ++ post), true) c' ->
  result (Read.String env fmtOther c key) = Some (pre ++ withDefault env n d ++ post, true).
Proof.
  intros Hn Hbar Hd Hpre Hpost Hp Hcache HGet.
  rewrite (String_of_string c c' key _ Hcache HGet), Hp.
  by rewrite parseEnvValue_default.
Qed.

(** [Read.String] with [ParseEnv] on a stored [pre${NAME}post]. *)
Lemma String_keeps_unresolved (c c' : Config) (key pre name post : string) :
  name <> "" -> all Go.inClass name = true -> all noBar name = true ->
  all noDollar pre = true -> all noDollar post = true ->
  ParseEnv (opts c) = true ->
  Read.fromCache c (strCache c) key = None ->
  Read.Get c key [] = Ret (VStr (pre ++ token name ++ post), true) c' ->
  Getenv env name = "" ->
  result (Read.String env fmtOther c key) = Some (pre ++ token name ++ post, true).
Proof.
  intros Hne Hn Hbar Hpre Hpost Hp Hcache HGet Hunset.
  rewrite (String_of_string c c' key _ Hcache HGet), Hp.
  rewrite parseEnvValue_no_default by done.
  unfold orItself. by rewrite Hunset.
Qed.

End Interpolation.

(** C5. [GetString] takes a value that starts with ["${"] for one token
    as a whole: with text behind the token the default comes out with
    the closing brace and that text, a set variable replaces the whole
    value, and a token further inside is left alone.  [Read.String]
    substitutes the token in place; on the token alone both agree. *)
Theorem GetString_token_in_text :
  ConfigGet.GetString Sample.unset Sample.fmtOther Sample.texts "path"
    = Ret ("fallback}/bin", true) Sample.texts /\
  ConfigGet.GetString Sample.set Sample.fmtOther Sample.texts "path"
    = Ret ("v", true) Sample.texts /\
  ConfigGet.GetString Sample.unset Sample.fmtOther Sample.texts "inner"
    = Ret ("bin/${ENV_X | fallback}", true) Sample.texts /\
  Read.String Sample.unset Sample.fmtOther Sample.texts "path"
    = Ret ("fallback/bin", true) Sample.texts /\
  Read.String Sample.set Sample.fmtOther Sample.texts "path"
    = Ret ("v/bin", true) Sample.texts /\
  Read.String Sample.unset Sample.fmtOther Sample.texts "inner"
    = Ret ("bin/fallback", true) Sample.texts /\
  ConfigGet.GetString Sample.unset Sample.fmtOther Sample.texts "tok"
    = Ret ("fallback", true) Sample.texts /\
  ConfigGet.GetString Sample.set Sample.fmtOther Sample.texts "tok"
    = Ret ("v", true) Sample.texts /\
  Read.String Sample.unset Sample.fmtOther Sample.texts "tok"
    = Ret ("fallback", true) Sample.texts /\
  Read.String Sample.set Sample.fmtOther Sample.texts "tok"
    = Ret ("v", true) Sample.texts.
Proof. evaluate. Qed.

(** C6. For [${ENV_X}] with ENV_X not set, [GetString] returns the empty
    string with ok=true; [Read.String] returns the token. *)
Theorem GetString_unresolved_is_empty :
  ConfigGet.GetString Sample.unset Sample.fmtOther Sample.texts "home"
    = Ret ("", true) Sample.texts /\
  Read.String Sample.unset Sample.fmtOther Sample.texts "home"
    = Ret ("${ENV_X}", true) Sample.texts.
Proof. evaluate. Qed.

(** ** Integers *)

Section Integers.

Variable env : gmap string string.
Variable fmtOther : value -> string.

(** [Read.Int64] is [Read.Int] with the value converted. *)
Lemma Int64_widens (c c' : Config) (key : string) (v : Z) (ok : bool) :
  Read.Int env fmtOther c key = Ret (v, ok) c' ->
  Read.Int64 env fmtOther c key = Ret (if ok then int64 v else 0, ok) c'.
Proof. intros H. unfold Read.Int64. rewrite H. by destruct ok. Qed.

Lemma Int_zero_unless_ok (c c' : Config) (key : string) (v : Z) :
  Read.Int env fmtOther c key = Ret (v, false) c' -> v = 0.
Proof.
  unfold Read.Int. destruct (Read.String _ _ _ _) as [[s ok] c1|]; simpl; [|done].
  destruct ok; simpl; [|by inversion 1].
  destruct (Go.Atoi s); by inversion 1.
Qed.

(** [GetInt64] never returns ok=true. *)
Lemma GetInt64_never_ok (c c' : Config) (key : string) (v : Z) (ok : bool) :
  ConfigGet.GetInt64 env fmtOther c key = Ret (v, ok) c' -> ok = false.
Proof.
  unfold ConfigGet.GetInt64.
  destruct (ConfigGet.GetInt _ _ _ _) as [[n b] c1|]; simpl; by inversion 1.
Qed.

End Integers.

(** C8. On [n: 5] [GetInt] returns (5, true) and [GetInt64] returns
    (5, false); [Read.Int] and [Read.Int64] both return (5, true). *)
Theorem GetInt64_reports_not_found :
  result (ConfigGet.GetInt ∅ Sample.fmtOther Sample.numbers "n") = Some (5, true) /\
  result (ConfigGet.GetInt64 ∅ Sample.fmtOther Sample.numbers "n") = Some (5, false) /\
  result (Read.Int ∅ Sample.fmtOther Sample.numbers "n") = Some (5, true) /\
  result (Read.Int64 ∅ Sample.fmtOther Sample.numbers "n") = Some (5, true).
Proof. evaluate. Qed.

(** ** Integer sequences *)

Section Ints.

Variable fmtOther : value -> string.

Lemma atoiEach_all (arr : list Z) (l : list value) (ns : list Z) :
  Forall2 (parsesAs fmtOther) l ns -> Read.atoiEach fmtOther arr l = ((arr ++ ns)%list, None).
Proof.
  intros H. revert arr.
  induction H as [|v n l ns Hv _ IH]; intros arr; simpl.
  - by rewrite app_nil_r.
  - unfold parsesAs in Hv. rewrite Hv, IH. by rewrite <- app_assoc.
Qed.

Lemma atoiEach_stops (arr : list Z) (pre post : list value) (x : value)
    (ns : list Z) :
  Forall2 (parsesAs fmtOther) pre ns -> Go.Atoi (Sprint fmtOther x) = None ->
  Read.atoiEach fmtOther arr (pre ++ x :: post)%list =
  ((arr ++ ns)%list, Some (Sprint fmtOther x)).
Proof.
  intros H Hx. revert arr.
  induction H as [|v n l ns Hv _ IH]; intros arr; simpl.
  - by rewrite Hx, app_nil_r.
  - unfold parsesAs in Hv. rewrite Hv, IH. by rewrite <- app_assoc.
Qed.

(** C7, as the code has it.  On a heterogeneous sequence whose elements
    [pre] parse as the integers [ns] and whose next element [x] does not,
    [Ints] and [GetIntArr] return ok=false together with exactly [ns],
    the integers parsed before [x]. *)
Theorem Ints_returns_parsed_prefix (c c' : Config) (key : string)
    (pre post : list value) (x : value) (ns : list Z) :
  Forall2 (parsesAs fmtOther) pre ns ->
  Go.Atoi (Sprint fmtOther x) = None ->
  (Read.Get c key [] = Ret (VSlice (pre ++ x :: post)%list, true) c' ->
   Read.Ints fmtOther c key =
   Ret (ns, false) (addError (NumError (Sprint fmtOther x)) c')) /\
  (ConfigGet.Get c key [] = Ret (VSlice (pre ++ x :: post)%list, true) c' ->
   ConfigGet.GetIntArr fmtOther c key = Ret (ns, false) c').
Proof.
  intros Hpre Hx. split; intros HGet.
  - unfold Read.Ints. rewrite HGet. simpl.
    by rewrite (atoiEach_stops [] pre post x ns Hpre Hx).
  - unfold ConfigGet.GetIntArr. rewrite HGet. simpl.
    by rewrite (atoiEach_stops [] pre post x ns Hpre Hx).
Qed.

End Ints.

(** On [xs: [1, "x", 3]] both accessors return the slice [[1]] with ok=false. *)
Lemma Ints_partial_result :
  Read.Get Sample.mixed "xs" [] =
    Ret (VSlice [Sample.int 1; VStr "x"; Sample.int 3], true) Sample.mixed /\
  Go.Atoi (Sprint Sample.fmtOther (VStr "x")) = None /\
  result (Read.Ints Sample.fmtOther Sample.mixed "xs") = Some ([1], false) /\
  result (ConfigGet.GetIntArr Sample.fmtOther Sample.mixed "xs") = Some ([1], false) /\
  result (Read.Ints Sample.fmtOther Sample.mixed "xs") <> Some ([], false).
Proof. evaluate. Qed.

Lemma Ints_returns_parsed_prefix_witness :
  Read.Ints Sample.fmtOther Sample.mixed "xs" =
    Ret ([1], false) (addError (NumError "x") Sample.mixed) /\
  ConfigGet.GetIntArr Sample.fmtOther Sample.mixed "xs" =
    Ret ([1], false) Sample.mixed.
Proof.
  destruct (Ints_returns_parsed_prefix Sample.fmtOther Sample.mixed
              Sample.mixed "xs" [Sample.int 1] [Sample.int 3] (VStr "x") [1])
    as [HInts HGetIntArr].
  - repeat constructor.
  - reflexivity.
  - split; [apply HInts | apply HGetIntArr]; vm_compute; reflexivity.
Defined.

(** ** The result caches *)

Lemma Get_fields (c c' : Config) (key : string) (findByPath : list bool)
    (r : value * bool) :
  Read.Get c key findByPath = Ret r c' ->
  opts c' = opts c /\ data c' = data c /\ strCache c' = strCache c /\
  sArrCache c' = sArrCache c /\ sMapCache c' = sMapCache c.
Proof. intros [es ->]%Get_state. apply addErrors_fields. Qed.

(** [Get] reads the Value Store and nothing else of the instance. *)
Lemma Get_reads_data (c1 c2 : Config) (key : string) (findByPath : list bool) :
  data c1 = data c2 ->
  result (Read.Get c1 key findByPath) = result (Read.Get c2 key findByPath).
Proof.
  intros Hd. unfold Read.Get. rewrite Hd.
  repeat case_match; done.
Qed.

Lemma fromCache_hit {A : Type} (c : Config) (m : gmap string A) (key : string)
    (x : A) :
  EnableCache (opts c) = true -> m !! key = Some x ->
  Read.fromCache c m key = Some x.
Proof.
  intros He Hm. unfold Read.fromCache. rewrite He. simpl.
  destruct (Z.ltb_spec 0 (Z.of_nat (size m))) as [_|Hs]; [done|].
  assert (m = ∅) as -> by (apply map_size_empty_iff; lia).
  by rewrite lookup_empty in Hm.
Qed.

Lemma fromCache_Some {A : Type} (c : Config) (m : gmap string A) (key : string)
    (x : A) :
  Read.fromCache c m key = Some x ->
  EnableCache (opts c) = true /\ m !! key = Some x.
Proof.
  unfold Read.fromCache. destruct (EnableCache (opts c)); simpl; [|done].
  by destruct (0 <? Z.of_nat (size m)).
Qed.

Section Cache.

Variable env : gmap string string.
Variable fmtOther : value -> string.

Ltac miss HGet :=
  match goal with
  | H : context [Read.Get ?c ?key []] |- _ =>
    destruct (Read.Get c key []) as [[raw ok] c0|] eqn:HGet; simpl in H;
    [|discriminate]
  end.

Lemma String_success (c c1 : Config) (key v : string) :
  EnableCache (opts c) = true ->
  Read.String env fmtOther c key = Ret (v, true) c1 ->
  strCache c1 !! key = Some v /\
  servedFromCache (Read.String env fmtOther) c1 key v.
Proof.
  intros He H. unfold Read.String in H.
  assert (EnableCache (opts c1) = true /\ strCache c1 !! key = Some v)
    as [He1 Hc1].
  { destruct (Read.fromCache c (strCache c) key) as [x|] eqn:Hc.
    - inversion H; subst. by apply fromCache_Some in Hc.
    - miss HGet. apply Get_fields in HGet as (Ho & _).
      destruct ok; simpl in H; [|discriminate].
      destruct (Read.toString _ _ _ _); [|discriminate].
      rewrite Ho, He in H. inversion H; subst. simpl.
      split; [congruence|apply lookup_insert_eq]. }
  split; [done|]. intros d. unfold Read.String.
  change (strCache (withData d c1)) with (strCache c1).
  by rewrite (fromCache_hit (withData d c1) (strCache c1) key v He1 Hc1).
Qed.

Lemma String_failure (c c1 : Config) (key v : string) :
  Read.String env fmtOther c key = Ret (v, false) c1 ->
  strCache c1 = strCache c /\ opts c1 = opts c /\ data c1 = data c.
Proof.
  intros H. unfold Read.String in H.
  destruct (Read.fromCache c (strCache c) key) as [x|]; [discriminate|].
  miss HGet. apply Get_fields in HGet as (Ho & Hd & Hs & _).
  destruct ok; simpl in H.
  - destruct (Read.toString _ _ _ _); [discriminate|]. by inversion H; subst.
  - by inversion H; subst.
Qed.

Lemma String_reads (c1 c2 : Config) (key : string) :
  opts c1 = opts c2 -> data c1 = data c2 -> strCache c1 = strCache c2 ->
  result (Read.String env fmtOther c1 key) =
  result (Read.String env fmtOther c2 key).
Proof.
  intros Ho Hd Hs. unfold Read.String, Read.fromCache. rewrite Ho, Hs.
  destruct (_ && _); [destruct (strCache c2 !! key); [done|]|];
    pose proof (Get_reads_data c1 c2 key [] Hd) as HG;
    destruct (Read.Get c1 key []) as [[r1 ok1] c1'|] eqn:H1;
    destruct (Read.Get c2 key []) as [[r2 ok2] c2'|] eqn:H2;
    simpl in *; try done; inversion HG; subst;
    apply Get_fields in H1 as (-> & _); apply Get_fields in H2 as (-> & _);
    rewrite Ho; destruct ok2; simpl; try done;
    destruct (Read.toString _ _ _ _); done.
Qed.

Lemma Strings_success (c c1 : Config) (key : string) (arr : list string) :
  EnableCache (opts c) = true ->
  Read.Strings fmtOther c key = Ret (arr, true) c1 ->
  sArrCache c1 !! key = Some arr /\
  servedFromCache (Read.Strings fmtOther) c1 key arr.
Proof.
  intros He H. unfold Read.Strings in H.
  assert (EnableCache (opts c1) = true /\ sArrCache c1 !! key = Some arr)
    as [He1 Hc1].
  { destruct (Read.fromCache c (sArrCache c) key) as [x|] eqn:Hc.
    - inversion H; subst. by apply fromCache_Some in Hc.
    - miss HGet. apply Get_fields in HGet as (Ho & _).
      destruct ok; simpl in H; [|discriminate].
      destruct (Read.toStrings _ _); [|discriminate].
      rewrite Ho, He in H. inversion H; subst. simpl.
      split; [congruence|apply lookup_insert_eq]. }
  split; [done|]. intros d. unfold Read.Strings.
  change (sArrCache (withData d c1)) with (sArrCache c1).
  by rewrite (fromCache_hit (withData d c1) (sArrCache c1) key arr He1 Hc1).
Qed.

Lemma Strings_failure (c c1 : Config) (key : string) (arr : list string) :
  Read.Strings fmtOther c key = Ret (arr, false) c1 ->
  sArrCache c1 = sArrCache c /\ opts c1 = opts c /\ data c1 = data c.
Proof.
  intros H. unfold Read.Strings in H.
  destruct (Read.fromCache c (sArrCache c) key) as [x|]; [discriminate|].
  miss HGet. apply Get_fields in HGet as (Ho & Hd & _ & Hs & _).
  destruct ok; simpl in H.
  - destruct (Read.toStrings _ _); [discriminate|]. by inversion H; subst.
  - by inversion H; subst.
Qed.

Lemma Strings_reads (c1 c2 : Config) (key : string) :
  opts c1 = opts c2 -> data c1 = data c2 -> sArrCache c1 = sArrCache c2 ->
  result (Read.Strings fmtOther c1 key) = result (Read.Strings fmtOther c2 key).
Proof.
  intros Ho Hd Hs. unfold Read.Strings, Read.fromCache. rewrite Ho, Hs.
  destruct (_ && _); [destruct (sArrCache c2 !! key); [done|]|];
    pose proof (Get_reads_data c1 c2 key [] Hd) as HG;
    destruct (Read.Get c1 key []) as [[r1 ok1] c1'|] eqn:H1;
    destruct (Read.Get c2 key []) as [[r2 ok2] c2'|] eqn:H2;
    simpl in *; try done; inversion HG; subst;
    apply Get_fields in H1 as (-> & _); apply Get_fields in H2 as (-> & _);
    rewrite Ho; destruct ok2; simpl; try done;
    destruct (Read.toStrings _ _); done.
Qed.

Lemma StringMap_success (c c1 : Config) (key : string) (mp : gmap string string) :
  EnableCache (opts c) = true ->
  Read.StringMap fmtOther c key = Ret (mp, true) c1 ->
  sMapCache c1 !! key = Some mp /\
  servedFromCache (Read.StringMap fmtOther) c1 key mp.
Proof.
  intros He H. unfold Read.StringMap in H.
  assert (EnableCache (opts c1) = true /\ sMapCache c1 !! key = Some mp)
    as [He1 Hc1].
  { destruct (Read.fromCache c (sMapCache c) key) as [x|] eqn:Hc.
    - inversion H; subst. by apply fromCache_Some in Hc.
    - miss HGet. apply Get_fields in HGet as (Ho & _).
      destruct ok; simpl in H; [|discriminate].
      destruct (Read.toStringMap _ _); [|discriminate].
      rewrite Ho, He in H. inversion H; subst. simpl.
      split; [congruence|apply lookup_insert_eq]. }
  split; [done|]. intros d. unfold Read.StringMap.
  change (sMapCache (withData d c1)) with (sMapCache c1).
  by rewrite (fromCache_hit (withData d c1) (sMapCache c1) key mp He1 Hc1).
Qed.

Lemma StringMap_failure (c c1 : Config) (key : string) (mp : gmap string string) :
  Read.StringMap fmtOther c key = Ret (mp, false) c1 ->
  sMapCache c1 = sMapCache c /\ opts c1 = opts c /\ data c1 = data c.
Proof.
  intros H. unfold Read.StringMap in H.
  destruct (Read.fromCache c (sMapCache c) key) as [x|]; [discriminate|].
  miss HGet. apply Get_fields in HGet as (Ho & Hd & _ & _ & Hs).
  destruct ok; simpl in H.
  - destruct (Read.toStringMap _ _); [discriminate|]. by inversion H; subst.
  - by inversion H; subst.
Qed.

Lemma StringMap_reads (c1 c2 : Config) (key : string) :
  opts c1 = opts c2 -> data c1 = data c2 -> sMapCache c1 = sMapCache c2 ->
  result (Read.StringMap fmtOther c1 key) =
  result (Read.StringMap fmtOther c2 key).
Proof.
  intros Ho Hd Hs. unfold Read.StringMap, Read.fromCache. rewrite Ho, Hs.
  destruct (_ && _); [destruct (sMapCache c2 !! key); [done|]|];
    pose proof (Get_reads_data c1 c2 key [] Hd) as HG;
    destruct (Read.Get c1 key []) as [[r1 ok1] c1'|] eqn:H1;
    destruct (Read.Get c2 key []) as [[r2 ok2] c2'|] eqn:H2;
    simpl in *; try done; inversion HG; subst;
    apply Get_fields in H1 as (-> & _); apply Get_fields in H2 as (-> & _);
    rewrite Ho; destruct ok2; simpl; try done;
    destruct (Read.toStringMap _ _); done.
Qed.

End Cache.

Lemma withData_same (c : Config) : withData (data c) c = c.
Proof. by destruct c. Qed.

(** C9, as the code has it.  With the cache enabled, a call of [String],
    [Strings] or [StringMap] that returns ok=true leaves the value it
    returns in the cache of its kind under the key, and a second call
    returns the same value from there without reading the Value Store;
    a call that returns ok=false leaves the cache as it was, and the
    second call resolves the key again, with the same result. *)
Theorem cached_accessors_repeat (env : gmap string string)
    (fmtOther : value -> string) (c : Config) (key : string) :
  EnableCache (opts c) = true ->
  (forall v c1, Read.String env fmtOther c key = Ret (v, true) c1 ->
     strCache c1 !! key = Some v /\
     Read.String env fmtOther c1 key = Ret (v, true) c1 /\
     servedFromCache (Read.String env fmtOther) c1 key v) /\
  (forall v c1, Read.String env fmtOther c key = Ret (v, false) c1 ->
     strCache c1 = strCache c /\
     result (Read.String env fmtOther c1 key) = Some (v, false)) /\
  (forall arr c1, Read.Strings fmtOther c key = Ret (arr, true) c1 ->
     sArrCache c1 !! key = Some arr /\
     Read.Strings fmtOther c1 key = Ret (arr, true) c1 /\
     servedFromCache (Read.Strings fmtOther) c1 key arr) /\
  (forall arr c1, Read.Strings fmtOther c key = Ret (arr, false) c1 ->
     sArrCache c1 = sArrCache c /\
     result (Read.Strings fmtOther c1 key) = Some (arr, false)) /\
  (forall mp c1, Read.StringMap fmtOther c key = Ret (mp, true) c1 ->
     sMapCache c1 !! key = Some mp /\
     Read.StringMap fmtOther c1 key = Ret (mp, true) c1 /\
     servedFromCache (Read.StringMap fmtOther) c1 key mp) /\
  (forall mp c1, Read.StringMap fmtOther c key = Ret (mp, false) c1 ->
     sMapCache c1 = sMapCache c /\
     result (Read.StringMap fmtOther c1 key) = Some (mp, false)).
Proof.
  intros He. repeat split.
  - by eapply String_success.
  - destruct (String_success env fmtOther c c1 key v He H) as [_ Hs].
    specialize (Hs (data c1)). by rewrite withData_same in Hs.
  - by eapply String_success.
  - by eapply String_failure.
  - destruct (String_failure env fmtOther c c1 key v H) as (Hs & Ho & Hd).
    by rewrite (String_reads env fmtOther c1 c key Ho Hd Hs), H.
  - by eapply Strings_success.
  - destruct (Strings_success fmtOther c c1 key arr He H) as [_ Hs].
    specialize (Hs (data c1)). by rewrite withData_same in Hs.
  - by eapply Strings_success.
  - by eapply Strings_failure.
  - destruct (Strings_failure fmtOther c c1 key arr H) as (Hs & Ho & Hd).
    by rewrite (Strings_reads fmtOther c1 c key Ho Hd Hs), H.
  - by eapply StringMap_success.
  - destruct (StringMap_success fmtOther c c1 key mp He H) as [_ Hs].
    specialize (Hs (data c1)). by rewrite withData_same in Hs.
  - by eapply StringMap_success.
  - by eapply StringMap_failure.
  - destruct (StringMap_failure fmtOther c c1 key mp H) as (Hs & Ho & Hd).
    by rewrite (StringMap_reads fmtOther c1 c key Ho Hd Hs), H.
Qed.

Lemma cached_accessors_repeat_witness :
  EnableCache (opts Sample.cached) = true /\
  strCache Sample.filled !! "tok" = Some "fallback" /\
  Read.String ∅ Sample.fmtOther Sample.filled "tok" =
    Ret ("fallback", true) Sample.filled.
Proof.
  split; [reflexivity|].
  destruct (cached_accessors_repeat ∅ Sample.fmtOther Sample.cached "tok"
              eq_refl) as (HString & _).
  destruct (HString "fallback" Sample.filled) as (Hentry & Hagain & _).
  - vm_compute. reflexivity.
  - split; [exact Hentry | exact Hagain].
Defined.

(** On a key that does not resolve nothing is cached and the second call
    walks the Value Store again: it logs the error of the walk a second
    time, and it finds the key once the Value Store holds it. *)
Lemma String_failure_walks_again :
  let c1 := addError (NumError "x") Sample.cached in
  let c2 := addError (NumError "x") c1 in
  EnableCache (opts Sample.cached) = true /\
  Read.String ∅ Sample.fmtOther Sample.cached "arr.x" = Ret ("", false) c1 /\
  strCache c1 !! "arr.x" = None /\
  Read.String ∅ Sample.fmtOther c1 "arr.x" = Ret ("", false) c2 /\
  errors c2 = [NumError "x"; NumError "x"] /\
  ~ servedFromCache (Read.String ∅ Sample.fmtOther) c1 "arr.x" "" /\
  result (Read.String ∅ Sample.fmtOther
            (withData (<["arr.x" := VStr "now"]> ∅) c1) "arr.x")
    = Some ("now", true).
Proof.
  cbv zeta. do 5 (split; [vm_compute; reflexivity|]).
  split; [|vm_compute; reflexivity].
  intros H. specialize (H (data Sample.cached)). vm_compute in H. discriminate.
Qed.

(** ** Structure mapping of a key that does not resolve *)

(** C10, as the code has it.  For a key other than the empty string that
    [Get] does not resolve, [Structure] returns a nil error and leaves
    the target as it is; [GetStructure] does so for every key [Get] does
    not resolve. *)
Theorem Structure_of_unresolved_key (target : Type)
    (encode : value -> string + error)
    (decode : string -> target -> target * option error)
    (c c' : Config) (key : string) (v : target) (raw : value) :
  (key <> "" ->
   Read.Get c key [] = Ret (raw, false) c' ->
   Read.Structure target encode decode c key v = Ret (v, None) c') /\
  (ConfigGet.Get c key [] = Ret (raw, false) c' ->
   ConfigGet.GetStructure target encode decode c key v = Ret (v, None) c').
Proof.
  split.
  - intros Hkey HGet. by apply (Structure_not_found encode decode c c' key v raw).
  - intros HGet. by apply (GetStructure_not_found encode decode c c' key v raw).
Qed.

Lemma Structure_of_unresolved_key_witness :
  Read.Structure string Sample.Marshal Sample.UnmarshalRaw Sample.numbers " . " "old"
    = Ret ("old", None) (addError errInvalidKey Sample.numbers) /\
  ConfigGet.GetStructure string Sample.Marshal Sample.UnmarshalRaw
    Sample.numbers "" "old" = Ret ("old", None) Sample.numbers.
Proof.
  split.
  - apply (Structure_of_unresolved_key string Sample.Marshal Sample.UnmarshalRaw
             Sample.numbers (addError errInvalidKey Sample.numbers)
             " . " "old" VNil).
    + discriminate.
    + vm_compute. reflexivity.
  - apply (Structure_of_unresolved_key string Sample.Marshal Sample.UnmarshalRaw
             Sample.numbers Sample.numbers "" "old" VNil).
    vm_compute. reflexivity.
Defined.

(** The empty string does not resolve, yet [Structure] maps the whole
    Value Store for it: the target is overwritten, and an error of the
    encoder is returned. *)
Lemma Structure_of_empty_key :
  result (Read.Get Sample.numbers "" []) = Some (VNil, false) /\
  (exists blob,
     blob <> "old" /\
     result (Read.Structure string Sample.Marshal Sample.UnmarshalRaw
               Sample.numbers "" "old") = Some (blob, None)) /\
  result (Read.Structure string Sample.Marshal Sample.UnmarshalRaw
            Sample.maps "" "old") = Some ("old", Some Sample.unsupported).
Proof.
  split; [vm_compute; reflexivity|]. split.
  - exists ("{" ++ Sample.quote ++ "s" ++ Sample.quote ++ ":" ++
            Sample.quote ++ "abc" ++ Sample.quote ++ "," ++
            Sample.quote ++ "n" ++ Sample.quote ++ ":5}").
    split; [discriminate|]. vm_compute. reflexivity.
  - vm_compute. reflexivity.
Qed.

(** * Further properties of the accessors *)

(** ** Decimal texts *)

Lemma digits_string_of_uint (d : Decimal.uint) (acc : Z) :
  Go.digits acc (NilEmpty.string_of_uint d) = Some (uintValue d acc).
Proof.
  revert acc. induction d; intros acc; simpl; rewrite ?IHd; try done.
  do 2 f_equal. change (Z.of_nat (Go.code "0") - 48) with 0. lia.
Qed.

Lemma uintValue_acc (d : Decimal.uint) (acc : positive) :
  uintValue d (Z.pos acc) = Z.pos (Pos.of_uint_acc d acc).
Proof.
  revert acc. induction d; intros acc; simpl; try done;
    rewrite <- IHd; f_equal; lia.
Qed.

Lemma uintValue_zero (d : Decimal.uint) :
  uintValue d 0 = Z.of_N (Pos.of_uint d).
Proof.
  induction d; simpl; [done|done|..]; apply uintValue_acc.
Qed.

Lemma uintValue_to_uint (p : positive) : uintValue (Pos.to_uint p) 0 = Z.pos p.
Proof. by rewrite uintValue_zero, DecimalPos.Unsigned.of_to. Qed.

Lemma unsigned_to_uint (p : positive) :
  Go.unsigned (NilEmpty.string_of_uint (Pos.to_uint p)) = Some (Z.pos p).
Proof.
  unfold Go.unsigned. rewrite digits_string_of_uint, uintValue_to_uint.
  pose proof (DecimalPos.Unsigned.to_uint_nonnil p) as Hnil.
  by destruct (Pos.to_uint p).
Qed.

Lemma string_of_to_uint (p : positive) :
  NilZero.string_of_uint (Pos.to_uint p) =
  NilEmpty.string_of_uint (Pos.to_uint p).
Proof.
  pose proof (DecimalPos.Unsigned.to_uint_nonnil p) as Hnil.
  by destruct (Pos.to_uint p).
Qed.

(** The text of a numeral starts with a digit, so [Atoi] takes no sign off it. *)
Lemma Atoi_unsigned (d : Decimal.uint) :
  d <> Decimal.Nil ->
  Go.Atoi (NilEmpty.string_of_uint d) =
  (Go.unsigned (NilEmpty.string_of_uint d) ≫= Go.inRange).
Proof. intros Hd. by destruct d. Qed.

(** [strconv.Atoi] reads back what [%v] prints for an integer of the [int] range. *)
Lemma Atoi_Itoa (n : Z) : fitsInt n -> Go.Atoi (Go.Itoa n) = Some n.
Proof.
  intros Hn. assert (Go.inRange n = Some n) as Hr.
  { unfold Go.inRange, fitsInt in *.
    destruct (Z.leb_spec Go.minInt n), (Z.leb_spec n Go.maxInt); simpl; [done|lia..]. }
  unfold Go.Itoa. destruct n as [|p|p]; simpl.
  - done.
  - rewrite string_of_to_uint.
    rewrite Atoi_unsigned by apply DecimalPos.Unsigned.to_uint_nonnil.
    by rewrite unsigned_to_uint.
  - rewrite string_of_to_uint. unfold Go.Atoi.
    by rewrite unsigned_to_uint.
Qed.

(** ** More on path resolution *)

Lemma at_index_fault {A : Type} (l : list A) (i : Z) (p : panic) :
  at_index l i = inr p -> ~ Z.of_nat (length l) < i -> outOfRange p.
Proof.
  unfold at_index. intros H Hle.
  destruct (Z.ltb_spec i 0) as [Hneg|Hpos].
  - inversion H. simpl. by left.
  - destruct (l !! Z.to_nat i) eqn:Hl; [done|]. inversion H. simpl.
    apply lookup_ge_None_1 in Hl. right. lia.
Qed.

Lemma index_fault {A : Type} (inj : A -> value) (l : list A) (k : string)
    (p : panic) :
  Read.index inj l k = Fault p -> outOfRange p.
Proof.
  unfold Read.index. destruct (Go.Atoi k) as [i|]; [|done].
  destruct (Z.ltb_spec (Z.of_nat (length l)) i) as [|Hle]; [done|].
  destruct (at_index l i) eqn:Hat; [done|]. intros [= <-].
  apply (at_index_fault l i _ Hat). lia.
Qed.

Lemma child_fault (key : string) (item : value) (k : string) (p : panic) :
  Read.child key item k = Fault p -> outOfRange p.
Proof.
  destruct item; simpl; try done; try apply index_fault;
    by repeat case_match.
Qed.

Lemma walk_fault (key : string) (keys : list string) (item : value) (p : panic) :
  Read.walk key item keys = Fault p -> outOfRange p.
Proof.
  revert item. induction keys as [|k ks IH]; intros item; simpl; [done|].
  destruct (Read.child key item k) eqn:Hc; [apply IH|done|].
  intros [= <-]. by apply child_fault in Hc.
Qed.

Lemma earlier_child_fault (item : value) (k : string) (p : panic) :
  ConfigGet.child item k = ConfigGet.Fault p -> outOfRange p.
Proof.
  destruct item; simpl; try done; try by repeat case_match.
  destruct (Go.Atoi k) as [i|]; [|done].
  destruct (Z.ltb_spec (Z.of_nat (length l)) i) as [|Hle]; [done|].
  destruct (at_index l i) eqn:Hat; [done|]. intros [= <-].
  apply (at_index_fault l i _ Hat). lia.
Qed.

Lemma earlier_walk_fault (keys : list string) (item : value) (p : panic) :
  ConfigGet.walk item keys = ConfigGet.Fault p -> outOfRange p.
Proof.
  revert item. induction keys as [|k ks IH]; intros item; simpl; [done|].
  destruct (ConfigGet.child item k) eqn:Hc; [apply IH|done|].
  intros [= <-]. by apply earlier_child_fault in Hc.
Qed.

(** X1. The only fault of either [Get] is the element expression on a
    sequence, and the index it faults on is negative or equal to the
    length of that sequence: an index above the length, a segment that
    is no integer, a missing key or a node that is no container never
    make [Get] fault. *)
Theorem Get_faults_only_at_the_bounds (c : Config) (key : string)
    (findByPath : list bool) (p : panic) :
  Read.Get c key findByPath = Panic p \/ ConfigGet.Get c key findByPath = Panic p ->
  outOfRange p.
Proof.
  intros [H|H].
  - unfold Read.Get in H.
    repeat match type of H with
    | (if ?b then _ else _) = _ => destruct b
    | match Read.walk ?k ?i ?r with _ => _ end = _ =>
        destruct (Read.walk k i r) eqn:Hw
    | match ?x with _ => _ end = _ => destruct x
    end; try discriminate.
    inversion H; subst. by apply walk_fault in Hw.
  - unfold ConfigGet.Get in H.
    repeat match type of H with
    | (if ?b then _ else _) = _ => destruct b
    | match ConfigGet.walk ?i ?r with _ => _ end = _ =>
        destruct (ConfigGet.walk i r) eqn:Hw
    | match ?x with _ => _ end = _ => destruct x
    end; try discriminate.
    inversion H; subst. by apply earlier_walk_fault in Hw.
Qed.

Lemma Get_faults_only_at_the_bounds_witness :
  outOfRange (IndexOutOfRange 3 3).
Proof.
  apply (Get_faults_only_at_the_bounds Sample.arrays "arr.3" []).
  left. vm_compute. reflexivity.
Defined.

(** What the earlier [Get] descends to, the current one descends to. *)
Lemma child_agrees (key : string) (item : value) (k : string) (s : ConfigGet.step) :
  ConfigGet.child item k = s ->
  match s with
  | ConfigGet.Descend x => Read.child key item k = Descend x
  | ConfigGet.Fault p => Read.child key item k = Fault p
  | ConfigGet.Return _ => True
  end.
Proof.
  intros <-. destruct item; simpl; try done.
  - by destruct (m !! k).
  - by destruct (lookupAny k m).
  - unfold Read.index. destruct (Go.Atoi k) as [i|]; [|done].
    destruct (Z.of_nat (length l) <? i); [done|].
    by destruct (at_index l i).
Qed.

Lemma walk_agrees (key : string) (keys : list string) (item : value) :
  match ConfigGet.walk item keys with
  | ConfigGet.Descend x => Read.walk key item keys = Descend x
  | ConfigGet.Fault p => Read.walk key item keys = Fault p
  | ConfigGet.Return _ => True
  end.
Proof.
  revert item. induction keys as [|k ks IH]; intros item; simpl; [done|].
  pose proof (child_agrees key item k _ eq_refl) as Hc.
  destruct (ConfigGet.child item k) as [x|ok|p]; [|done|by rewrite Hc].
  rewrite Hc. apply IH.
Qed.

(** X2. The current [Get] finds every value the earlier [Get] finds, at
    the same key, and faults wherever the earlier one faults.  (A nil
    value with ok=true is left out: the earlier [Get] also returns it
    where it gave up on a sequence index.) *)
Theorem Get_extends_earlier_Get (c c' : Config) (key : string)
    (findByPath : list bool) :
  (forall v, ConfigGet.Get c key findByPath = Ret (v, true) c' ->
     v <> VNil -> Read.Get c key findByPath = Ret (v, true) c) /\
  (forall p, ConfigGet.Get c key findByPath = Panic p ->
     Read.Get c key findByPath = Panic p).
Proof.
  unfold ConfigGet.Get, Read.Get, Read.formatKey.
  split; [intros v H Hv|intros p H];
    destruct (String.eqb _ ""); try discriminate;
    destruct (data c !! _) eqn:Htop; try (by inversion H);
    destruct (Read.pathDisabled _); try discriminate;
    destruct (negb _); try discriminate;
    destruct (Go.Split _ _) as [|topK rest]; try discriminate;
    destruct (data c !! topK) as [item|]; try discriminate;
    pose proof (walk_agrees (Go.Trim (Go.TrimSpace key) ".") rest item) as Hw;
    destruct (ConfigGet.walk item rest); inversion H; subst;
    first [done | by rewrite Hw].
Qed.

Lemma Get_extends_earlier_Get_witness :
  Read.Get Sample.maps "db.port" [] = Ret (Sample.int 5432, true) Sample.maps /\
  Read.Get Sample.arrays "arr.3" [] = Panic (IndexOutOfRange 3 3).
Proof.
  destruct (Get_extends_earlier_Get Sample.maps Sample.maps "db.port" [])
    as [Hfound _].
  destruct (Get_extends_earlier_Get Sample.arrays Sample.arrays "arr.3" [])
    as [_ Hfault].
  split.
  - apply Hfound; [vm_compute; reflexivity | discriminate].
  - apply Hfault. vm_compute. reflexivity.
Defined.









Lemma string_of_uint_all (p : ascii -> bool) (d : Decimal.uint) :
  all p "0123456789" = true -> all p (NilEmpty.string_of_uint d) = true.
Proof.
  simpl. rewrite !andb_true_iff.
  intros (H0 & H1 & H2 & H3 & H4 & H5 & H6 & H7 & H8 & H9 & _).
  induction d; simpl; rewrite ?IHd, ?andb_true_r; done.
Qed.

(** The text of an integer holds digits and, in front, a minus sign. *)
Lemma Itoa_all (p : ascii -> bool) (n : Z) :
  all p "-0123456789" = true -> all p (Go.Itoa n) = true.
Proof.
  intros [Hminus Hdigits]%andb_true_iff. unfold Go.Itoa.
  destruct n as [|q|q]; simpl.
  - simpl in Hdigits. apply andb_true_iff in Hdigits as [-> _]. done.
  - rewrite string_of_to_uint. by apply string_of_uint_all.
  - rewrite string_of_to_uint, Hminus. by apply string_of_uint_all.
Qed.



(** ** Integers and booleans read back *)

Section ReadBack.

Variable env : gmap string string.
Variable fmtOther : value -> string.

(** [Read.String] past the cache, on a value that is no string. *)
Lemma String_of_scalar (c c' : Config) (key : string) (val : value) (s : string) :
  Read.fromCache c (strCache c) key = None ->
  Read.Get c key [] = Ret (val, true) c' ->
  (forall p, Read.toString env fmtOther p val = Some s) ->
  result (Read.String env fmtOther c key) = Some (s, true).
Proof.
  intros Hcache HGet Hs. unfold Read.String. rewrite Hcache, HGet. simpl.
  by rewrite Hs.
Qed.

Lemma Int_of_stored_integer (c c' : Config) (key : string) (k : intKind) (n : Z) :
  Read.listed k = true ->
  fitsInt n ->
  Read.fromCache c (strCache c) key = None ->
  Read.Get c key [] = Ret (VInt k n, true) c' ->
  result (Read.Int env fmtOther c key) = Some (n, true).
Proof.
  intros Hk Hn Hcache HGet.
  pose proof (String_of_scalar c c' key (VInt k n) (Go.Itoa n) Hcache HGet)
    as HString.
  assert (forall p, Read.toString env fmtOther p (VInt k n) = Some (Go.Itoa n))
    as Htext by (intros p; simpl; by rewrite Hk).
  specialize (HString Htext). unfold Read.Int.
  destruct (Read.String env fmtOther c key) as [[s ok] c1|]; simpl in *;
    [|done].
  injection HString as -> ->. simpl. by rewrite (Atoi_Itoa n Hn).
Qed.

(** X5. An integer of the [int] range stored under any integer kind but
    [uint32] is read back by [Int] and [Int64] as that integer, when the
    string cache has no entry for the key. *)
Theorem Int_reads_stored_integer (c c' : Config) (key : string) (k : intKind)
    (n : Z) :
  Read.listed k = true ->
  fitsInt n ->
  Read.fromCache c (strCache c) key = None ->
  Read.Get c key [] = Ret (VInt k n, true) c' ->
  result (Read.Int env fmtOther c key) = Some (n, true) /\
  result (Read.Int64 env fmtOther c key) = Some (n, true).
Proof.
  intros Hk Hn Hcache HGet.
  pose proof (Int_of_stored_integer c c' key k n Hk Hn Hcache HGet) as HInt.
  split; [done|]. unfold Read.Int64.
  destruct (Read.Int env fmtOther c key) as [[v ok] c1|]; simpl in *; [|done].
  by inversion HInt; subst.
Qed.

End ReadBack.

Lemma Int_reads_stored_integer_witness :
  result (Read.Int ∅ Sample.fmtOther Sample.numbers "n") = Some (5, true) /\
  result (Read.Int64 ∅ Sample.fmtOther Sample.numbers "n") = Some (5, true).
Proof.
  apply (Int_reads_stored_integer ∅ Sample.fmtOther Sample.numbers
           Sample.numbers "n" KInt 5).
  - reflexivity.
  - unfold fitsInt. vm_compute. split; discriminate.
  - vm_compute. reflexivity.
  - vm_compute. reflexivity.
Defined.

(** ** Integer sequences read back *)

Section IntsReadBack.

Variable fmtOther : value -> string.

Lemma atoiEach_ok (arr arr' : list Z) (l : list value) :
  Read.atoiEach fmtOther arr l = (arr', None) ->
  exists ns, arr' = (arr ++ ns)%list /\ Forall2 (parsesAs fmtOther) l ns.
Proof.
  revert arr. induction l as [|v l IH]; intros arr; simpl.
  - intros [= <-]. exists []. by rewrite app_nil_r.
  - destruct (Go.Atoi (Sprint fmtOther v)) as [iv|] eqn:Hv; [|done].
    intros (ns & -> & Hns)%IH. exists (iv :: ns).
    split; [by rewrite <- app_assoc|by constructor].
Qed.

(** X6. On a heterogeneous sequence [Ints] and [GetIntArr] return ok=true
    exactly when every element formats and parses as an integer, and the
    slice they return then holds those integers in order. *)
Theorem Ints_succeeds_iff_all_parse (c c' : Config) (key : string)
    (l : list value) (arr : list Z) :
  (Read.Get c key [] = Ret (VSlice l, true) c' ->
   (result (Read.Ints fmtOther c key) = Some (arr, true) <->
    Forall2 (parsesAs fmtOther) l arr)) /\
  (ConfigGet.Get c key [] = Ret (VSlice l, true) c' ->
   (result (ConfigGet.GetIntArr fmtOther c key) = Some (arr, true) <->
    Forall2 (parsesAs fmtOther) l arr)).
Proof.
  split; intros HGet;
    [unfold Read.Ints|unfold ConfigGet.GetIntArr]; rewrite HGet; simpl.
  all: split.
  all: try (intros Hall; by rewrite (atoiEach_all fmtOther [] l arr Hall)).
  all: destruct (Read.atoiEach fmtOther [] l) as [arr' [num|]] eqn:He;
    simpl; [done|].
  all: intros [= ->]; by apply atoiEach_ok in He as (ns & -> & Hns).
Qed.

Lemma integers_parse (k : intKind) (ns : list Z) :
  Forall fitsInt ns -> Forall2 (parsesAs fmtOther) (VInt k <$> ns) ns.
Proof.
  induction 1 as [|n ns Hn _ IH]; simpl; constructor; [|done].
  unfold parsesAs. simpl. by apply Atoi_Itoa.
Qed.

(** X7. A heterogeneous sequence of integers of the [int] range is read
    back by [Ints] as those integers, and the instance is left as it is. *)
Theorem Ints_reads_stored_integers (c c' : Config) (key : string) (k : intKind)
    (ns : list Z) :
  Forall fitsInt ns ->
  Read.Get c key [] = Ret (VSlice (VInt k <$> ns), true) c' ->
  Read.Ints fmtOther c key = Ret (ns, true) c'.
Proof.
  intros Hns HGet. unfold Read.Ints. rewrite HGet. simpl.
  by rewrite (atoiEach_all fmtOther [] _ ns (integers_parse k ns Hns)).
Qed.

End IntsReadBack.

Lemma Ints_succeeds_iff_all_parse_witness :
  result (Read.Ints Sample.fmtOther Sample.arrays "arr") = Some ([1; 2; 3], true).
Proof.
  destruct (Ints_succeeds_iff_all_parse Sample.fmtOther Sample.arrays Sample.arrays
              "arr" [Sample.int 1; Sample.int 2; Sample.int 3] [1; 2; 3])
    as [HInts _].
  apply HInts.
  - vm_compute. reflexivity.
  - repeat constructor.
Defined.

Lemma Ints_reads_stored_integers_witness :
  Read.Ints Sample.fmtOther Sample.arrays "arr" = Ret ([1; 2; 3], true) Sample.arrays.
Proof.
  apply (Ints_reads_stored_integers Sample.fmtOther Sample.arrays Sample.arrays
           "arr" KInt [1; 2; 3]).
  - repeat constructor; vm_compute; discriminate.
  - vm_compute. reflexivity.
Defined.

(** ** Maps read back *)

Section MapsReadBack.

Variable fmtOther : value -> string.

(** Every value of [l] parses, the keys of [l] format to different texts:
    the loop of [IntMap] binds each of them, and nothing else. *)
Lemma atoiEntries_all (mp : gmap string Z) (l : list (value * value)) :
  NoDup ((fun kv => Sprint fmtOther kv.1) <$> l) ->
  Forall (fun kv => is_Some (Go.Atoi (Sprint fmtOther kv.2))) l ->
  exists mp',
    Read.atoiEntries fmtOther mp l = (mp', None) /\
    (forall kv n, kv ∈ l -> parsesAs fmtOther kv.2 n ->
       mp' !! Sprint fmtOther kv.1 = Some n) /\
    (forall k, k ∉ (fun kv => Sprint fmtOther kv.1) <$> l -> mp' !! k = mp !! k).
Proof.
  revert mp. induction l as [|[k0 v0] l IH]; intros mp Hdup Hall; simpl.
  - exists mp. split; [done|]. split; [|done].
    intros kv n Hin. by apply elem_of_nil in Hin.
  - apply NoDup_cons in Hdup as [Hk0 Hdup]. apply Forall_cons in Hall as [[n0 Hv0] Hall].
    simpl in *. rewrite Hv0.
    destruct (IH (<[Sprint fmtOther k0 := n0]> mp) Hdup Hall) as (mp' & -> & Hin & Hout).
    exists mp'. split; [done|]. split.
    + intros kv n [->|Hkv]%elem_of_cons Hn.
      * simpl. rewrite (Hout _ Hk0), lookup_insert_eq.
        unfold parsesAs in Hn. simpl in Hn. congruence.
      * by apply Hin.
    + intros k [Hne Hk]%not_elem_of_cons.
      rewrite (Hout _ Hk). by rewrite lookup_insert_ne.
Qed.

Lemma atoiEntries_fails (mp : gmap string Z) (l : list (value * value)) :
  Exists (fun kv => Go.Atoi (Sprint fmtOther kv.2) = None) l ->
  exists mp' num, Read.atoiEntries fmtOther mp l = (mp', Some num).
Proof.
  revert mp. induction l as [|[k0 v0] l IH]; intros mp Hex; simpl.
  - by apply Exists_nil in Hex.
  - destruct (Go.Atoi (Sprint fmtOther v0)) as [iv|] eqn:Hv0; [|by eauto].
    apply Exists_cons in Hex as [Hex|Hex]; simpl in *; [congruence|].
    apply (IH _ Hex).
Qed.

Lemma entries_keys (m : gmap string value) :
  (fun kv => Sprint fmtOther kv.1) <$> Read.entries m = (map_to_list m).*1.
Proof.
  unfold Read.entries. rewrite <- list_fmap_compose.
  apply list_fmap_ext. by intros _ [k v] _.
Qed.

Lemma elem_of_entries (m : gmap string value) (kv : value * value) :
  kv ∈ Read.entries m <-> exists k v, kv = (VStr k, v) /\ m !! k = Some v.
Proof.
  unfold Read.entries. rewrite list_elem_of_fmap. split.
  - intros ([k v] & -> & Hin%elem_of_map_to_list). by exists k, v.
  - intros (k & v & -> & Hm). exists (k, v). by rewrite elem_of_map_to_list.
Qed.

(** X8. On a [map[string]interface{}] whose every value formats and
    parses as an integer, [IntMap] returns ok=true and a map that binds
    exactly the keys of the stored map, each to the integer of its
    value; when some value does not parse, it returns ok=false. *)
Theorem IntMap_of_generic_map (c c' : Config) (key : string)
    (m : gmap string value) :
  Read.Get c key [] = Ret (VMapStrAny m, true) c' ->
  ((forall k v, m !! k = Some v -> is_Some (Go.Atoi (Sprint fmtOther v))) ->
   exists mp,
     Read.IntMap fmtOther c key = Ret (mp, true) c' /\
     forall k n, mp !! k = Some n <->
                 exists v, m !! k = Some v /\ parsesAs fmtOther v n) /\
  ((exists k v, m !! k = Some v /\ Go.Atoi (Sprint fmtOther v) = None) ->
   exists mp, result (Read.IntMap fmtOther c key) = Some (mp, false)).
Proof.
  intros HGet. unfold Read.IntMap. rewrite HGet. simpl. split.
  - intros Hall.
    destruct (atoiEntries_all ∅ (Read.entries m)) as (mp & -> & Hin & Hout).
    { rewrite entries_keys. apply NoDup_fst_map_to_list. }
    { apply Forall_forall. intros kv (k & v & -> & Hm)%elem_of_entries. eauto. }
    exists mp. split; [done|]. intros k n. split.
    + intros Hk. destruct (m !! k) as [v|] eqn:Hm.
      * exists v. split; [done|]. destruct (Hall k v Hm) as [n' Hn'].
        assert ((VStr k, v) ∈ Read.entries m) as He
          by (apply elem_of_entries; eauto).
        specialize (Hin (VStr k, v) n' He Hn'). simpl in Hin.
        unfold parsesAs. congruence.
      * rewrite Hout in Hk; [by rewrite lookup_empty in Hk|].
        rewrite entries_keys. intros ([k' v] & -> & Hkv%elem_of_map_to_list)%list_elem_of_fmap.
        simpl in Hm. congruence.
    + intros (v & Hm & Hn).
      apply (Hin (VStr k, v) n); [|done]. apply elem_of_entries. eauto.
  - intros (k & v & Hm & Hv).
    destruct (atoiEntries_fails ∅ (Read.entries m)) as (mp & num & ->).
    { apply Exists_exists. exists (VStr k, v). split; [|done].
      apply elem_of_entries. eauto. }
    by exists mp.
Qed.

End MapsReadBack.

Lemma IntMap_of_generic_map_witness :
  exists mp,
    Read.IntMap Sample.fmtOther Sample.maps "db" = Ret (mp, true) Sample.maps /\
    mp !! "port" = Some 5432.
Proof.
  destruct (IntMap_of_generic_map Sample.fmtOther Sample.maps Sample.maps "db"
              (<["port" := Sample.int 5432]> ∅)) as [Hall _].
  - vm_compute. reflexivity.
  - destruct Hall as (mp & HIntMap & Hmp).
    + intros k v [[<- <-]|[_ Hk]]%lookup_insert_Some; [by eexists|].
      by rewrite lookup_empty in Hk.
    + exists mp. split; [exact HIntMap|].
      apply Hmp. exists (Sample.int 5432). split; reflexivity.
Defined.

Section StringMaps.

Variable fmtOther : value -> string.

Lemma foldl_insert_lookup (l : list (value * value)) (mp : gmap string string) :
  NoDup ((fun kv => Sprint fmtOther kv.1) <$> l) ->
  let mp' := foldl (fun mp kv => <[Sprint fmtOther kv.1 := Sprint fmtOther kv.2]> mp)
                   mp l in
  (forall kv, kv ∈ l -> mp' !! Sprint fmtOther kv.1 = Some (Sprint fmtOther kv.2)) /\
  (forall k, k ∉ (fun kv => Sprint fmtOther kv.1) <$> l -> mp' !! k = mp !! k).
Proof.
  revert mp. induction l as [|kv0 l IH]; intros mp Hdup; simpl.
  - split; [|done]. intros kv Hin. by apply elem_of_nil in Hin.
  - apply NoDup_cons in Hdup as [Hk0 Hdup].
    destruct (IH (<[Sprint fmtOther kv0.1 := Sprint fmtOther kv0.2]> mp) Hdup)
      as [Hin Hout].
    split.
    + intros kv [->|Hkv]%elem_of_cons; [|by apply Hin].
      by rewrite (Hout _ Hk0), lookup_insert_eq.
    + intros k [Hne Hk]%not_elem_of_cons.
      rewrite (Hout _ Hk). by rewrite lookup_insert_ne.
Qed.

(** X9. Past the cache, [StringMap] turns a [map[string]interface{}] into
    the map with the same keys and each value formatted, and a
    [map[interface{}]interface{}] whose keys format to different texts
    into the map that binds the text of each key to the text of its
    value, and nothing else. *)
Theorem StringMap_formats_entries (c c' : Config) (key : string) :
  Read.fromCache c (sMapCache c) key = None ->
  (forall m, Read.Get c key [] = Ret (VMapStrAny m, true) c' ->
     exists mp,
       result (Read.StringMap fmtOther c key) = Some (mp, true) /\
       forall k, mp !! k = Sprint fmtOther <$> m !! k) /\
  (forall l, Read.Get c key [] = Ret (VMapAnyAny l, true) c' ->
     NoDup ((fun kv => Sprint fmtOther kv.1) <$> l) ->
     exists mp,
       result (Read.StringMap fmtOther c key) = Some (mp, true) /\
       forall k s, mp !! k = Some s <->
                   exists kv, kv ∈ l /\ Sprint fmtOther kv.1 = k /\
                              Sprint fmtOther kv.2 = s).
Proof.
  intros Hcache. split.
  - intros m HGet. exists (Sprint fmtOther <$> m).
    unfold Read.StringMap. rewrite Hcache, HGet. simpl.
    split; [done|]. intros k. apply lookup_fmap.
  - intros l HGet Hdup. eexists.
    unfold Read.StringMap. rewrite Hcache, HGet. simpl.
    split; [done|]. intros k s.
    destruct (foldl_insert_lookup l ∅ Hdup) as [Hin Hout]. split.
    + intros Hk.
      destruct (decide (k ∈ (fun kv => Sprint fmtOther kv.1) <$> l)) as [Hel|Hnel].
      * apply list_elem_of_fmap in Hel as (kv & -> & Hkv).
        exists kv. rewrite (Hin kv Hkv) in Hk. by inversion Hk.
      * rewrite (Hout k Hnel), lookup_empty in Hk. done.
    + intros (kv & Hkv & <- & <-). by apply Hin.
Qed.

End StringMaps.

Lemma StringMap_formats_entries_witness :
  exists mp,
    result (Read.StringMap Sample.fmtOther Sample.maps "yaml") = Some (mp, true) /\
    mp !! "on" = Some "true".
Proof.
  destruct (StringMap_formats_entries Sample.fmtOther Sample.maps Sample.maps "yaml")
    as [_ Hany].
  - vm_compute. reflexivity.
  - destruct (Hany [(VStr "on", VBool true)]) as (mp & HStringMap & Hmp).
    + vm_compute. reflexivity.
    + simpl. apply NoDup_singleton.
    + exists mp. split; [exact HStringMap|].
      apply Hmp. exists (VStr "on", VBool true).
      split; [apply list_elem_of_singleton; reflexivity|split; reflexivity].
Defined.

(** ** Booleans read back *)

Section Booleans.

Variable env : gmap string string.
Variable fmtOther : value -> string.
Variable lowerUnicode : string -> string.

(** [strings.ToLower] leaves a text without capital letters as it is. *)
Lemma ToLower_small (s : string) :
  all small s = true -> Go.ToLower lowerUnicode s = s.
Proof.
  intros Hs. unfold Go.ToLower.
  assert (Go.allBytes Go.isASCII s = true /\ Go.mapBytes Go.lowerByte s = s)
    as [-> ->]; [|done].
  induction s as [|a s IH]; simpl in *; [done|].
  apply andb_true_iff in Hs as [Ha Hs]. destruct (IH Hs) as [-> ->].
  unfold small in Ha. apply andb_true_iff in Ha as [-> Hup].
  unfold Go.lowerByte. by destruct (Go.between 65 90 a).
Qed.

(** The text of an integer is one of the words of [Bool] for 0 and 1 only. *)
Lemma toBool_Itoa (n : Z) :
  fitsInt n ->
  Read.toBool (Go.Itoa n) =
  if Z.eqb n 0 then Some false else if Z.eqb n 1 then Some true else None.
Proof.
  intros Hn.
  destruct (Z.eqb_spec n 0) as [->|H0]; [done|].
  destruct (Z.eqb_spec n 1) as [->|H1]; [done|].
  assert (forall w z, Go.Atoi w = z -> z <> Some n ->
                      String.eqb (Go.Itoa n) w = false) as Hw.
  { intros w z Hz Hne. destruct (String.eqb_spec (Go.Itoa n) w) as [<-|]; [|done].
    rewrite (Atoi_Itoa n Hn) in Hz. congruence. }
  unfold Read.toBool. simpl.
  rewrite (Hw "" None), (Hw "0" (Some 0)), (Hw "false" None), (Hw "no" None),
    (Hw "1" (Some 1)), (Hw "true" None), (Hw "yes" None); try done; congruence.
Qed.

(** X10. Past the string cache, [Bool] reads a stored boolean back as it
    is, and a stored integer of the [int] range (of any kind but
    [uint32]) as false for 0, as true for 1, and with ok=false for any
    other integer. *)
Theorem Bool_reads_stored_scalars (c c' : Config) (key : string) :
  Read.fromCache c (strCache c) key = None ->
  (forall b, Read.Get c key [] = Ret (VBool b, true) c' ->
     result (Read.Bool env fmtOther lowerUnicode c key) = Some (b, true)) /\
  (forall k n, Read.Get c key [] = Ret (VInt k n, true) c' ->
     Read.listed k = true -> fitsInt n ->
     result (Read.Bool env fmtOther lowerUnicode c key) =
     Some (Z.eqb n 1, Z.eqb n 0 || Z.eqb n 1)).
Proof.
  intros Hcache. split.
  - intros b HGet.
    pose proof (String_of_scalar env fmtOther c c' key (VBool b)
                  (Sprint fmtOther (VBool b)) Hcache HGet (fun _ => eq_refl))
      as HString.
    unfold Read.Bool.
    destruct (Read.String env fmtOther c key) as [[s ok] c1|]; [|done].
    simpl in HString. injection HString as -> ->. by destruct b.
  - intros k n HGet Hk Hn.
    assert (forall p, Read.toString env fmtOther p (VInt k n) = Some (Go.Itoa n))
      as Htext by (intros p; simpl; by rewrite Hk).
    pose proof (String_of_scalar env fmtOther c c' key (VInt k n) (Go.Itoa n)
                  Hcache HGet Htext) as HString.
    unfold Read.Bool.
    destruct (Read.String env fmtOther c key) as [[s ok] c1|]; [|done].
    simpl in HString. injection HString as -> ->. simpl.
    rewrite ToLower_small by (apply Itoa_all; reflexivity).
    rewrite (toBool_Itoa n Hn).
    destruct (Z.eqb n 0) eqn:H0; [|by destruct (Z.eqb n 1)].
    apply Z.eqb_eq in H0 as ->. done.
Qed.

End Booleans.

Lemma Bool_reads_stored_scalars_witness :
  result (Read.Bool ∅ Sample.fmtOther id Sample.numbers "n") = Some (false, false).
Proof.
  destruct (Bool_reads_stored_scalars ∅ Sample.fmtOther id Sample.numbers
              Sample.numbers "n") as [_ Hint].
  - vm_compute. reflexivity.
  - apply (Hint KInt 5).
    + vm_compute. reflexivity.
    + reflexivity.
    + unfold fitsInt. vm_compute. split; discriminate.
Defined.

(** ** What the accessors leave alone *)

Lemma sameStore_refl (c : Config) : sameStore c c.
Proof. repeat split. exists []. by rewrite app_nil_r. Qed.

Lemma sameStore_trans (c1 c2 c3 : Config) :
  sameStore c1 c2 -> sameStore c2 c3 -> sameStore c1 c3.
Proof.
  intros (Ho1 & Hd1 & es1 & He1) (Ho2 & Hd2 & es2 & He2).
  repeat split; [congruence..|]. exists (es1 ++ es2)%list.
  by rewrite He2, He1, <- app_assoc.
Qed.

Lemma sameStore_addError (e : error) (c : Config) : sameStore c (addError e c).
Proof. repeat split. by exists [e]. Qed.

Lemma sameStore_addErrors (es : list error) (c : Config) :
  sameStore c (addErrors es c).
Proof.
  unfold addErrors. revert c. induction es as [|e es IH]; intros c; simpl.
  - apply sameStore_refl.
  - eapply sameStore_trans; [apply sameStore_addError|apply IH].
Qed.

Lemma sameStore_caches (c : Config) :
  (forall m, sameStore c (setStrCache m c)) /\
  (forall m, sameStore c (setSArrCache m c)) /\
  (forall m, sameStore c (setSMapCache m c)).
Proof.
  repeat split; exists []; simpl; by rewrite app_nil_r.
Qed.

Lemma Get_sameStore (c c' : Config) (key : string) (findByPath : list bool)
    (r : value * bool) :
  Read.Get c key findByPath = Ret r c' -> sameStore c c'.
Proof. intros [es ->]%Get_state. apply sameStore_addErrors. Qed.

Section Frame.

Variable env : gmap string string.
Variable fmtOther : value -> string.
Variable lowerUnicode : string -> string.

(** The steps shared by the proofs below: open the call of [Get], or of
    the accessor the accessor at hand is built on, and close the goal
    with what is known of the state that call returned. *)
Ltac walked H HGet :=
  match type of H with
  | context [Read.Get ?c ?key []] =>
    destruct (Read.Get c key []) as [[? ?] ?|] eqn:HGet; simpl in H;
    [apply Get_sameStore in HGet|discriminate]
  end.

Ltac settle :=
  repeat match goal with
  | H : Ret _ _ = Ret _ _ |- _ => inversion H; subst; clear H
  | H : (if ?b then _ else _) = Ret _ _ |- _ => destruct b eqn:?; simpl in H
  | H : match ?x with _ => _ end = Ret _ _ |- _ => destruct x eqn:?; simpl in H
  end;
  try discriminate;
  repeat match goal with
  | |- sameStore _ (if ?b then _ else _) => destruct b
  end;
  try (eapply sameStore_trans; [eassumption|]);
  first [ apply sameStore_refl | apply sameStore_addError
        | apply sameStore_caches | idtac ].

Lemma String_sameStore (c c' : Config) (key : string) (r : string * bool) :
  Read.String env fmtOther c key = Ret r c' -> sameStore c c'.
Proof.
  unfold Read.String. intros H.
  destruct (Read.fromCache c (strCache c) key); [settle|].
  walked H HGet. settle.
Qed.

Lemma Int_sameStore (c c' : Config) (key : string) (r : Z * bool) :
  Read.Int env fmtOther c key = Ret r c' -> sameStore c c'.
Proof.
  unfold Read.Int. intros H.
  destruct (Read.String env fmtOther c key) as [[s ok] c0|] eqn:HString;
    simpl in H; [apply String_sameStore in HString|discriminate].
  settle.
Qed.

Lemma Bool_sameStore (c c' : Config) (key : string) (r : bool * bool) :
  Read.Bool env fmtOther lowerUnicode c key = Ret r c' -> sameStore c c'.
Proof.
  unfold Read.Bool. intros H.
  destruct (Read.String env fmtOther c key) as [[s ok] c0|] eqn:HString;
    simpl in H; [apply String_sameStore in HString|discriminate].
  settle.
Qed.

Lemma Ints_sameStore (c c' : Config) (key : string) (r : list Z * bool) :
  Read.Ints fmtOther c key = Ret r c' -> sameStore c c'.
Proof. unfold Read.Ints. intros H. walked H HGet. settle. Qed.

Lemma Strings_sameStore (c c' : Config) (key : string) (r : list string * bool) :
  Read.Strings fmtOther c key = Ret r c' -> sameStore c c'.
Proof.
  unfold Read.Strings. intros H.
  destruct (Read.fromCache c (sArrCache c) key); [settle|].
  walked H HGet. settle.
Qed.

Lemma StringMap_sameStore (c c' : Config) (key : string)
    (r : gmap string string * bool) :
  Read.StringMap fmtOther c key = Ret r c' -> sameStore c c'.
Proof.
  unfold Read.StringMap. intros H.
  destruct (Read.fromCache c (sMapCache c) key); [settle|].
  walked H HGet. settle.
Qed.

Lemma IntMap_sameStore (c c' : Config) (key : string) (r : gmap string Z * bool) :
  Read.IntMap fmtOther c key = Ret r c' -> sameStore c c'.
Proof. unfold Read.IntMap. intros H. walked H HGet. settle. Qed.

(** X11. No accessor writes the Value Store or the options, and none
    takes an error off the log: whatever [Get], [String], [Int], [Bool],
    [Ints], [Strings], [StringMap] or [IntMap] returns, the instance
    holds the same options and the same Value Store afterwards, and the
    errors it held before, followed by those the call logged. *)
Theorem accessors_keep_the_store (c c' : Config) (key : string) :
  (forall fb r, Read.Get c key fb = Ret r c' -> sameStore c c') /\
  (forall r, Read.String env fmtOther c key = Ret r c' -> sameStore c c') /\
  (forall r, Read.Int env fmtOther c key = Ret r c' -> sameStore c c') /\
  (forall r, Read.Bool env fmtOther lowerUnicode c key = Ret r c' ->
     sameStore c c') /\
  (forall r, Read.Ints fmtOther c key = Ret r c' -> sameStore c c') /\
  (forall r, Read.Strings fmtOther c key = Ret r c' -> sameStore c c') /\
  (forall r, Read.StringMap fmtOther c key = Ret r c' -> sameStore c c') /\
  (forall r, Read.IntMap fmtOther c key = Ret r c' -> sameStore c c').
Proof.
  repeat match goal with
  | |- (forall _, _) /\ _ => split
  end; intros;
    eauto using Get_sameStore, String_sameStore, Int_sameStore, Bool_sameStore,
      Ints_sameStore, Strings_sameStore, StringMap_sameStore, IntMap_sameStore.
Qed.

End Frame.

Lemma accessors_keep_the_store_witness :
  sameStore Sample.arrays (addError (NumError "x") Sample.arrays).
Proof.
  destruct (accessors_keep_the_store ∅ Sample.fmtOther id Sample.arrays
              (addError (NumError "x") Sample.arrays) "arr.x") as (HGet & _).
  apply (HGet [] (VNil, false)). vm_compute. reflexivity.
Defined.

(** ** With the cache disabled *)

Lemma fromCache_off {A : Type} (c : Config) (m : gmap string A) (key : string) :
  EnableCache (opts c) = false -> Read.fromCache c m key = None.
Proof. intros He. unfold Read.fromCache. by rewrite He. Qed.

Lemma Get_sameCaches (c c' : Config) (key : string) (fb : list bool)
    (r : value * bool) :
  Read.Get c key fb = Ret r c' -> sameCaches c c'.
Proof. intros (_ & _ & Hs & Ha & Hm)%Get_fields. by repeat split. Qed.

Section CacheOff.

Variable env : gmap string string.
Variable fmtOther : value -> string.

Ltac off He :=
  match goal with
  | H : _ = Ret _ ?c' |- sameCaches ?c ?c' =>
    rewrite fromCache_off in H by done;
    destruct (Read.Get c _ []) as [[raw ok] c0|] eqn:HGet; simpl in H;
    [|discriminate];
    pose proof (Get_fields _ _ _ _ _ HGet) as (Ho & _);
    apply Get_sameCaches in HGet; rewrite Ho, He in H;
    destruct ok; simpl in H; [|by inversion H; subst];
    repeat case_match; by inversion H; subst
  end.

Ltac unread c1 c2 key Ho Hd He :=
  rewrite !fromCache_off by congruence;
  pose proof (Get_reads_data c1 c2 key [] Hd) as HG;
  destruct (Read.Get c1 key []) as [[r1 ok1] c1'|] eqn:H1;
  destruct (Read.Get c2 key []) as [[r2 ok2] c2'|] eqn:H2;
  simpl in *; try done; inversion HG; subst;
  apply Get_fields in H1 as (-> & _); apply Get_fields in H2 as (-> & _);
  rewrite Ho, He; destruct ok2; simpl; try done;
  by repeat case_match.

(** X12. With [EnableCache] off, [String], [Strings] and [StringMap]
    leave the three caches as they are, and what they return does not
    depend on what the caches hold: two instances with the same options
    and the same Value Store get the same result. *)
Theorem disabled_cache_is_not_used (c : Config) (key : string) :
  EnableCache (opts c) = false ->
  (forall r c', Read.String env fmtOther c key = Ret r c' -> sameCaches c c') /\
  (forall r c', Read.Strings fmtOther c key = Ret r c' -> sameCaches c c') /\
  (forall r c', Read.StringMap fmtOther c key = Ret r c' -> sameCaches c c') /\
  (forall c2, opts c2 = opts c -> data c2 = data c ->
     result (Read.String env fmtOther c2 key) =
       result (Read.String env fmtOther c key) /\
     result (Read.Strings fmtOther c2 key) = result (Read.Strings fmtOther c key) /\
     result (Read.StringMap fmtOther c2 key) =
       result (Read.StringMap fmtOther c key)).
Proof.
  intros He. split; [|split; [|split]].
  - intros r c' H. unfold Read.String in H. off He.
  - intros r c' H. unfold Read.Strings in H. off He.
  - intros r c' H. unfold Read.StringMap in H. off He.
  - intros c2 Ho Hd. split; [|split].
    + unfold Read.String. unread c2 c key Ho Hd He.
    + unfold Read.Strings. unread c2 c key Ho Hd He.
    + unfold Read.StringMap. unread c2 c key Ho Hd He.
Qed.

End CacheOff.

Lemma disabled_cache_is_not_used_witness :
  sameCaches Sample.texts Sample.texts /\
  result (Read.String Sample.unset Sample.fmtOther
            (setStrCache (<["tok" := "stale"]> ∅) Sample.texts) "tok") =
  result (Read.String Sample.unset Sample.fmtOther Sample.texts "tok").
Proof.
  destruct (disabled_cache_is_not_used Sample.unset Sample.fmtOther Sample.texts
              "tok" eq_refl) as (HString & _ & _ & Hsame).
  split.
  - apply (HString ("fallback", true)). vm_compute. reflexivity.
  - apply Hsame; reflexivity.
Defined.

(** ** The normalised key *)

Lemma trimLeft_head (cutset s : string) (a : ascii) (r : string) :
  Go.trimLeft cutset s = String a r -> Go.inCutset cutset a = false.
Proof.
  induction s as [|b s IH]; simpl; [done|].
  destruct (Go.inCutset cutset b) eqn:Hb; [done|]. by intros [= <- _].
Qed.

Lemma trimLeft_suffix (cutset s : string) :
  exists p, s = p ++ Go.trimLeft cutset s.
Proof.
  induction s as [|b s [p IH]]; simpl; [by exists ""|].
  destruct (Go.inCutset cutset b).
  - exists (String b p). simpl. by rewrite <- IH.
  - by exists "".
Qed.

Lemma Trim_head (s cutset : string) (a : ascii) (r : string) :
  Go.Trim s cutset = String a r -> Go.inCutset cutset a = false.
Proof.
  unfold Go.Trim. intros H.
  destruct (trimLeft_suffix cutset (Go.rev (Go.trimLeft cutset s))) as [p Hp].
  apply (f_equal Go.rev) in Hp. rewrite rev_rev, rev_app, H in Hp.
  simpl in Hp. by apply trimLeft_head in Hp.
Qed.

Lemma Trim_last (s cutset : string) (a : ascii) (r : string) :
  Go.Trim s cutset = r ++ String a "" -> Go.inCutset cutset a = false.
Proof.
  unfold Go.Trim. intros H.
  apply (f_equal Go.rev) in H. rewrite rev_rev, rev_app in H.
  simpl in H. by apply trimLeft_head in H.
Qed.

(** X13. The key [formatKey] returns neither starts nor ends with a dot. *)
Theorem formatKey_has_no_outer_dot (key r : string) :
  Read.formatKey key <> "." ++ r /\ Read.formatKey key <> r ++ ".".
Proof.
  unfold Read.formatKey. split; intros H.
  - by apply Trim_head in H.
  - by apply Trim_last in H.
Qed.

(** ** Texts without a resolvable variable *)

Lemma HasPrefix_split (p s : string) :
  Go.HasPrefix s p = true -> exists rest, s = p ++ rest.
Proof.
  revert s. induction p as [|b p IH]; intros s; simpl; [by exists s|].
  destruct s as [|a s]; [done|].
  intros [Hab Hp]%andb_true_iff. apply Ascii.eqb_eq in Hab as ->.
  destruct (IH s Hp) as [rest ->]. by exists rest.
Qed.

Lemma span_split (s : string) : s = (Go.span s).1 ++ (Go.span s).2.
Proof.
  induction s as [|a s IH]; simpl; [done|].
  destruct (Go.inClass a); [|done].
  destruct (Go.span s) as [x y]. simpl in *. by rewrite <- IH.
Qed.

Lemma matchAt_split (s tok : string) :
  Go.matchAt s = Some tok -> exists rest, s = tok ++ rest.
Proof.
  unfold Go.matchAt. destruct (Go.HasPrefix s "${") eqn:Hp; [|done].
  apply HasPrefix_split in Hp as [s2 ->]. simpl.
  pose proof (span_split s2) as Hs.
  destruct (Go.span s2) as [[|b body] [|a rest]]; try done.
  destruct (Ascii.eqb_spec a "}") as [->|Hne].
  - intros [= <-]. exists rest. simpl in *. rewrite Hs at 1.
    by rewrite append_assoc.
  - intros H. exfalso.
    repeat match type of H with
    | match ?x with _ => _ end = _ => destruct x; try discriminate
    end. by apply Hne.
Qed.

Lemma lookupOld_Some (pairs : list (string * string)) (s old new : string) :
  Go.lookupOld pairs s = Some (old, new) ->
  (old, new) ∈ pairs /\ old <> "" /\ Go.HasPrefix s old = true.
Proof.
  induction pairs as [|[o n] ps IH]; simpl; [done|].
  destruct (String.eqb_spec o "") as [->|Hne]; simpl.
  - intros (Hin & Hold & Hp)%IH. repeat split; [by right|done..].
  - destruct (Go.HasPrefix s o) eqn:Hp.
    + intros [= <- <-]. repeat split; [by left|done..].
    + intros (Hin & Hold & Hp')%IH. repeat split; [by right|done..].
Qed.

(** Pairs that replace each old string by itself change nothing. *)
Lemma replace_by_itself (pairs : list (string * string)) (n : nat) (s : string) :
  (forall old new, (old, new) ∈ pairs -> new = old) ->
  (String.length s <= n)%nat -> Go.replace pairs 0 s = s.
Proof.
  intros Hsame. revert s. induction n as [|n IH]; intros s Hlen.
  - by destruct s; [|simpl in Hlen; lia].
  - destruct s as [|a r]; [done|]. simpl in Hlen.
    change (Go.replace pairs 0 (String a r)) with
      (match Go.lookupOld pairs (String a r) with
       | Some (old, new) => new ++ Go.replace pairs (String.length old - 1) r
       | None => String a (Go.replace pairs 0 r)
       end).
    destruct (Go.lookupOld pairs (String a r)) as [[old new]|] eqn:Hl.
    + apply lookupOld_Some in Hl as (Hin & Hne & Hp).
      rewrite (Hsame _ _ Hin).
      apply HasPrefix_split in Hp as [rest Hrest].
      destruct old as [|b old']; [done|]. simpl in Hrest.
      injection Hrest as -> ->. simpl. rewrite Nat.sub_0_r.
      rewrite (replace_skip old' rest pairs), IH; [done|].
      assert (String.length (old' ++ rest) =
              (String.length old' + String.length rest)%nat) as Happ
        by (clear; induction old'; simpl; congruence).
      lia.
    + rewrite IH; [done|lia].
Qed.

Lemma all_rev_append (p : ascii -> bool) (s acc : string) :
  all p (Go.rev_append s acc) = all p s && all p acc.
Proof.
  revert acc. induction s as [|a s IH]; intros acc; simpl; [done|].
  rewrite IH. simpl. destruct (p a), (all p s); done.
Qed.

Lemma all_drop (p : ascii -> bool) (n : nat) (s : string) :
  all p s = true -> all p (Go.drop n s) = true.
Proof.
  revert s. induction n as [|n IH]; intros s; [by destruct s|].
  destruct s as [|a s]; simpl; [done|].
  intros [_ Hs]%andb_true_iff. by apply IH.
Qed.

Lemma all_slice (p : ascii -> bool) (lo hi : nat) (s : string) :
  all p s = true -> all p (Go.slice lo hi s) = true.
Proof.
  intros Hs. unfold Go.slice, Go.rev. rewrite all_rev_append, andb_true_r.
  apply all_drop. rewrite all_rev_append, andb_true_r. by apply all_drop.
Qed.

Lemma findAll_without_bar (s : string) (skip : nat) :
  all noBar s = true -> Forall (fun tok => all noBar tok = true) (Go.findAll skip s).
Proof.
  revert skip. induction s as [|a r IH]; intros skip Hs; simpl; [done|].
  pose proof Hs as [_ Hr]%andb_true_iff.
  destruct skip; [|by apply IH].
  destruct (Go.matchAt (String a r)) as [tok|] eqn:Hm; [|by apply IH].
  constructor; [|by apply IH].
  apply matchAt_split in Hm as [rest Hrest].
  rewrite Hrest, all_app in Hs. by apply andb_true_iff in Hs as [-> _].
Qed.

Lemma resolve_unset (fVar : string) :
  all noBar fVar = true -> Read.resolve ∅ fVar = (fVar, fVar).
Proof.
  intros Hf. unfold Read.resolve, Go.SplitN2.
  rewrite (cut_no_bar _ (all_slice noBar 2 1 fVar Hf)). done.
Qed.

(** X14. With no environment variable set, [parseEnvValue] returns every
    text without a bar as it is: each of its tokens, however many, stands
    for a variable without default and is replaced by itself. *)
Theorem parseEnvValue_keeps_unresolved (val : string) :
  all noBar val = true -> Read.parseEnvValue ∅ val = val.
Proof.
  intros Hval. unfold Read.parseEnvValue.
  destruct (negb _); [done|].
  pose proof (findAll_without_bar val 0 Hval) as Hvars.
  fold (Go.FindAllString val) in Hvars.
  destruct (Go.FindAllString val) as [|tok vars] eqn:Hfind; [done|].
  apply (replace_by_itself _ (String.length val)); [|done].
  intros old new (fVar & Hr & Hin)%list_elem_of_fmap.
  rewrite Forall_forall in Hvars.
  rewrite (resolve_unset fVar (Hvars fVar Hin)) in Hr. by inversion Hr.
Qed.

Lemma parseEnvValue_keeps_unresolved_witness :
  Read.parseEnvValue ∅ "${HOME}/${APP-ENV}/${a b}" = "${HOME}/${APP-ENV}/${a b}".
Proof. apply parseEnvValue_keeps_unresolved. reflexivity. Defined.

(** ** The accessors with a default *)

Section Defaults.

Variable env : gmap string string.
Variable fmtOther : value -> string.
Variable lowerUnicode : string -> string.



(** X16. The earlier accessors with a default return the default for a
    key the earlier [Get] does not resolve; for a stored [int] or [int64]
    of the [int] range [DefInt] and [DefInt64] return that integer,
    whatever the default ([DefInt64] asks [GetInt], so the ok that
    [GetInt64] loses does not reach it). *)
Theorem earlier_defaults_apply_when_not_found (c c' : Config) (key : string) :
  (forall v, ConfigGet.Get c key [] = Ret (v, false) c' ->
     (forall def, result (ConfigGet.DefString env fmtOther c key def) = Some def) /\
     (forall def, result (ConfigGet.DefInt env fmtOther c key def) = Some def) /\
     (forall def, result (ConfigGet.DefInt64 env fmtOther c key def) = Some def) /\
     (forall def, result (ConfigGet.DefBool env fmtOther lowerUnicode c key def)
                  = Some def)) /\
  (forall k n def, ConfigGet.Get c key [] = Ret (VInt k n, true) c' ->
     k = KInt \/ k = KInt64 -> fitsInt n ->
     result (ConfigGet.DefInt env fmtOther c key def) = Some n /\
     result (ConfigGet.DefInt64 env fmtOther c key def) = Some n).
Proof.
  unfold ConfigGet.DefString, ConfigGet.DefInt, ConfigGet.DefInt64,
    ConfigGet.DefBool, ConfigGet.GetInt, ConfigGet.GetBool, ConfigGet.GetString.
  split.
  - intros v HGet. rewrite HGet. simpl. done.
  - intros k n def HGet [-> | ->] Hn; rewrite HGet; simpl;
      by rewrite (Atoi_Itoa n Hn).
Qed.

End Defaults.


Lemma earlier_defaults_apply_when_not_found_witness :
  result (ConfigGet.DefString ∅ Sample.fmtOther Sample.numbers "missing" "fallback")
    = Some "fallback" /\
  result (ConfigGet.DefInt64 ∅ Sample.fmtOther Sample.numbers "n" 7) = Some 5.
Proof.
  destruct (earlier_defaults_apply_when_not_found ∅ Sample.fmtOther id
              Sample.numbers Sample.numbers "missing") as [Hmissing _].
  destruct (earlier_defaults_apply_when_not_found ∅ Sample.fmtOther id
              Sample.numbers Sample.numbers "n") as [_ Hfound].
  destruct (Hmissing VNil) as (HDefString & _).
  { vm_compute. reflexivity. }
  destruct (Hfound KInt 5 7) as [_ HDefInt64].
  { vm_compute. reflexivity. }
  { left. reflexivity. }
  { unfold fitsInt. vm_compute. split; discriminate. }
  split; [apply HDefString|exact HDefInt64].
Defined.

(** ** The earlier composite accessors *)

(** The earlier [Get] logs nothing: it returns the instance it was given. *)
Lemma earlier_Get_state (c c' : Config) (key : string) (fb : list bool)
    (r : value * bool) :
  ConfigGet.Get c key fb = Ret r c' -> c' = c.
Proof.
  unfold ConfigGet.Get. intros H.
  repeat match type of H with
  | (if ?b then _ else _) = _ => destruct b
  | match ?x with _ => _ end = _ => destruct x
  end; try discriminate; by inversion H.
Qed.

Section EarlierComposites.

Variable env : gmap string string.
Variable fmtOther : value -> string.
Variable lowerUnicode : string -> string.

(** X17. With the cache enabled, a call of [GetStringArr] or
    [GetStringMap] that returns ok=true leaves the value it returns in
    the cache of its kind under the key, and later calls return that
    value from there, whatever the Value Store holds by then. *)
Theorem earlier_cached_accessors_repeat (c c1 : Config) (key : string) :
  EnableCache (opts c) = true ->
  (forall arr, ConfigGet.GetStringArr fmtOther c key = Ret (arr, true) c1 ->
     sArrCache c1 !! key = Some arr /\
     servedFromCache (ConfigGet.GetStringArr fmtOther) c1 key arr) /\
  (forall mp, ConfigGet.GetStringMap fmtOther c key = Ret (mp, true) c1 ->
     sMapCache c1 !! key = Some mp /\
     servedFromCache (ConfigGet.GetStringMap fmtOther) c1 key mp).
Proof.
  intros He. split.
  - intros arr H. unfold ConfigGet.GetStringArr in H.
    assert (EnableCache (opts c1) = true /\ sArrCache c1 !! key = Some arr)
      as [He1 Hc1].
    { destruct (Read.fromCache c (sArrCache c) key) as [x|] eqn:Hc.
      - inversion H; subst. by apply fromCache_Some in Hc.
      - destruct (ConfigGet.Get c key []) as [[raw ok] c0|] eqn:HGet;
          simpl in H; [|discriminate].
        apply earlier_Get_state in HGet as ->.
        destruct ok; simpl in H; [|discriminate].
        destruct raw; try discriminate.
        rewrite He in H. inversion H; subst. simpl.
        split; [done|apply lookup_insert_eq]. }
    split; [done|]. intros d. unfold ConfigGet.GetStringArr.
    change (sArrCache (withData d c1)) with (sArrCache c1).
    by rewrite (fromCache_hit (withData d c1) (sArrCache c1) key arr He1 Hc1).
  - intros mp H. unfold ConfigGet.GetStringMap in H.
    assert (EnableCache (opts c1) = true /\ sMapCache c1 !! key = Some mp)
      as [He1 Hc1].
    { destruct (Read.fromCache c (sMapCache c) key) as [x|] eqn:Hc.
      - inversion H; subst. by apply fromCache_Some in Hc.
      - destruct (ConfigGet.Get c key []) as [[raw ok] c0|] eqn:HGet;
          simpl in H; [|discriminate].
        apply earlier_Get_state in HGet as ->.
        destruct ok; simpl in H; [|discriminate].
        destruct (ConfigGet.toStringMap fmtOther raw); [|discriminate].
        rewrite He in H. inversion H; subst. simpl.
        split; [done|apply lookup_insert_eq]. }
    split; [done|]. intros d. unfold ConfigGet.GetStringMap.
    change (sMapCache (withData d c1)) with (sMapCache c1).
    by rewrite (fromCache_hit (withData d c1) (sMapCache c1) key mp He1 Hc1).
Qed.

(** X18. On a [map[string]interface{}] whose every value formats and
    parses as an integer, [GetIntMap] returns ok=true and a map that
    binds exactly the keys of the stored map, each to the integer of its
    value; when some value does not parse, it returns ok=false. *)
Theorem GetIntMap_of_generic_map (c c' : Config) (key : string)
    (m : gmap string value) :
  ConfigGet.Get c key [] = Ret (VMapStrAny m, true) c' ->
  ((forall k v, m !! k = Some v -> is_Some (Go.Atoi (Sprint fmtOther v))) ->
   exists mp,
     ConfigGet.GetIntMap fmtOther c key = Ret (mp, true) c' /\
     forall k n, mp !! k = Some n <->
                 exists v, m !! k = Some v /\ parsesAs fmtOther v n) /\
  ((exists k v, m !! k = Some v /\ Go.Atoi (Sprint fmtOther v) = None) ->
   exists mp, result (ConfigGet.GetIntMap fmtOther c key) = Some (mp, false)).
Proof.
  intros HGet. unfold ConfigGet.GetIntMap. rewrite HGet. simpl. split.
  - intros Hall.
    destruct (atoiEntries_all fmtOther ∅ (Read.entries m)) as (mp & -> & Hin & Hout).
    { rewrite entries_keys. apply NoDup_fst_map_to_list. }
    { apply Forall_forall. intros kv (k & v & -> & Hm)%elem_of_entries. eauto. }
    exists mp. split; [done|]. intros k n. split.
    + intros Hk. destruct (m !! k) as [v|] eqn:Hm.
      * exists v. split; [done|]. destruct (Hall k v Hm) as [n' Hn'].
        assert ((VStr k, v) ∈ Read.entries m) as He
          by (apply elem_of_entries; eauto).
        specialize (Hin (VStr k, v) n' He Hn'). simpl in Hin.
        unfold parsesAs. congruence.
      * rewrite Hout in Hk; [by rewrite lookup_empty in Hk|].
        rewrite entries_keys.
        intros ([k' v] & -> & Hkv%elem_of_map_to_list)%list_elem_of_fmap.
        simpl in Hm. congruence.
    + intros (v & Hm & Hn).
      apply (Hin (VStr k, v) n); [|done]. apply elem_of_entries. eauto.
  - intros (k & v & Hm & Hv).
    destruct (atoiEntries_fails fmtOther ∅ (Read.entries m)) as (mp & num & ->).
    { apply Exists_exists. exists (VStr k, v). split; [|done].
      apply elem_of_entries. eauto. }
    by exists mp.
Qed.

(** X19. [GetBool] reads a stored boolean back as it is, and a stored
    [int] or [int64] of the [int] range as false for 0, as true for 1,
    and with ok=false for any other integer. *)
Theorem GetBool_reads_stored_scalars (c c' : Config) (key : string) :
  (forall b, ConfigGet.Get c key [] = Ret (VBool b, true) c' ->
     ConfigGet.GetBool env fmtOther lowerUnicode c key = Ret (b, true) c') /\
  (forall k n, ConfigGet.Get c key [] = Ret (VInt k n, true) c' ->
     k = KInt \/ k = KInt64 -> fitsInt n ->
     ConfigGet.GetBool env fmtOther lowerUnicode c key =
     Ret (Z.eqb n 1, Z.eqb n 0 || Z.eqb n 1) c').
Proof.
  unfold ConfigGet.GetBool, ConfigGet.GetString. split.
  - intros b HGet. rewrite HGet. simpl. by destruct b.
  - intros k n HGet [-> | ->] Hn; rewrite HGet; simpl;
      rewrite ToLower_small by (apply Itoa_all; reflexivity);
      rewrite (toBool_Itoa n Hn);
      (destruct (Z.eqb n 0) eqn:H0; [|by destruct (Z.eqb n 1)]);
      by apply Z.eqb_eq in H0 as ->.
Qed.

End EarlierComposites.

Lemma earlier_cached_accessors_repeat_witness :
  sArrCache (setSArrCache (<["arr" := ["1"; "2"; "3"]]> ∅) Sample.cached) !! "arr"
    = Some ["1"; "2"; "3"].
Proof.
  destruct (earlier_cached_accessors_repeat Sample.fmtOther Sample.cached
              (setSArrCache (<["arr" := ["1"; "2"; "3"]]> ∅) Sample.cached)
              "arr" eq_refl) as [HArr _].
  destruct (HArr ["1"; "2"; "3"]) as [Hentry _].
  - vm_compute. reflexivity.
  - exact Hentry.
Defined.

Lemma GetIntMap_of_generic_map_witness :
  exists mp,
    ConfigGet.GetIntMap Sample.fmtOther Sample.maps "db" = Ret (mp, true) Sample.maps /\
    mp !! "port" = Some 5432.
Proof.
  destruct (GetIntMap_of_generic_map Sample.fmtOther Sample.maps Sample.maps "db"
              (<["port" := Sample.int 5432]> ∅)) as [Hall _].
  - vm_compute. reflexivity.
  - destruct Hall as (mp & HIntMap & Hmp).
    + intros k v [[<- <-]|[_ Hk]]%lookup_insert_Some; [by eexists|].
      by rewrite lookup_empty in Hk.
    + exists mp. split; [exact HIntMap|].
      apply Hmp. exists (Sample.int 5432). split; reflexivity.
Defined.

Lemma GetBool_reads_stored_scalars_witness :
  ConfigGet.GetBool ∅ Sample.fmtOther id Sample.maps "yaml.on"
    = Ret (true, true) Sample.maps /\
  ConfigGet.GetBool ∅ Sample.fmtOther id Sample.numbers "n"
    = Ret (false, false) Sample.numbers.
Proof.
  destruct (GetBool_reads_stored_scalars ∅ Sample.fmtOther id Sample.maps
              Sample.maps "yaml.on") as [Hbool _].
  destruct (GetBool_reads_stored_scalars ∅ Sample.fmtOther id Sample.numbers
              Sample.numbers "n") as [_ Hint].
  split.
  - apply Hbool. vm_compute. reflexivity.
  - apply (Hint KInt 5).
    + vm_compute. reflexivity.
    + left. reflexivity.
    + unfold fitsInt. vm_compute. split; discriminate.
Defined.

(** ** The empty store and top-level keys *)

(** X20. On an empty Value Store ([IsEmpty]) both [Get]s report every key
    as not found, with a nil value, and never fault. *)
Theorem Get_on_empty_store (c : Config) (key : string) (fb : list bool) :
  Read.IsEmpty c = true ->
  result (Read.Get c key fb) = Some (VNil, false) /\
  result (ConfigGet.Get c key fb) = Some (VNil, false).
Proof.
  unfold Read.IsEmpty. intros Hsize%Nat.eqb_eq%map_size_empty_iff.
  unfold Read.Get, ConfigGet.Get. rewrite Hsize.
  split; repeat case_match; simplify_map_eq; done.
Qed.

Lemma Get_on_empty_store_witness :
  result (Read.Get (Sample.config Sample.plain ∅) "a.0.b" []) = Some (VNil, false) /\
  result (ConfigGet.Get (Sample.config Sample.plain ∅) "a.0.b" []) = Some (VNil, false).
Proof. apply Get_on_empty_store. reflexivity. Defined.

(** X21. A key that, once normalised, is a top-level key of the Value
    Store is returned as it is stored by both [Get]s, whether or not it
    holds dots and whether or not path lookup is enabled, and the
    instance is left as it is. *)
Theorem Get_top_level_key (c : Config) (key : string) (fb : list bool) (v : value) :
  Read.formatKey key <> "" ->
  data c !! Read.formatKey key = Some v ->
  Read.Get c key fb = Ret (v, true) c /\ ConfigGet.Get c key fb = Ret (v, true) c.
Proof.
  intros Hne Hv. unfold Read.Get, ConfigGet.Get.
  fold (Read.formatKey key).
  destruct (String.eqb_spec (Read.formatKey key) "") as [?|_]; [done|].
  by rewrite Hv.
Qed.

Lemma Get_top_level_key_witness :
  let c := Sample.config Sample.plain
             (<["a.b" := VStr "flat"]> (<["a" := VMapStrAny (<["b" := VStr "nested"]> ∅)]> ∅)) in
  Read.Get c " a.b. " [false] = Ret (VStr "flat", true) c /\
  ConfigGet.Get c " a.b. " [false] = Ret (VStr "flat", true) c.
Proof.
  cbv zeta. apply Get_top_level_key.
  - vm_compute. discriminate.
  - vm_compute. reflexivity.
Defined.
